(** * Proof-of-work block model (src/index.ts)

    A shallow embedding of the [Block] class of src/index.ts, of the
    [isValidHash] function next to it, and of the parts of the JavaScript
    run time and of the crypto-js library the class relies on.

    Conventions.
    - The strings of the class [Block] are [string]s: one character per
      UTF-16 code unit, for the code units U+0000 .. U+00FF.  A JavaScript
      string in general is a list of code units (module [UTF16]), and
      [WideBlock] and [calculateHashWide] are the fields and the hash on
      such strings, where the encoding to UTF-8 can fail.
    - A JavaScript [number] holding an integer is a [Z].  [JS.increment]
      and [JS.toString] are [n++] and the conversion to a string on the
      integers from -2^53 to 2^53 ([exactInteger]), where every integer is
      a number; the statements about the nonce carry that range.  Beyond
      it a number rounds: [incrementDouble] is [n++] on every integer that
      is a number.
    - [Date.now()] is an explicit argument of the constructor.
    - The [while] loop of [mineBlock] takes a number of iterations it may
      perform (fuel); [None] means the loop has not finished yet. *)

From stdpp Require Import base option gmap strings list.
From Stdlib Require Import ZArith Lia String Ascii List DecimalString.
From Stdlib Require DecimalZ DecimalPos DecimalFacts.
Import ListNotations.

#[local] Open Scope Z_scope.

(** ** crypto-js: SHA-256 over UTF-8 bytes, rendered in hexadecimal *)

Module CryptoJS.

(** 32-bit words are integers in [0 .. 2^32). *)
Definition word := Z.
Definition wrap32 (x : Z) : word := Z.land x 0xffffffff.
Definition add32 (x y : word) : word := wrap32 (x + y).
Definition rotr (n : Z) (x : word) : word :=
  Z.lor (Z.shiftr x n) (wrap32 (Z.shiftl x (32 - n))).
Definition not32 (x : word) : word := Z.lxor x 0xffffffff.

Definition Ch (x y z : word) : word :=
  Z.lxor (Z.land x y) (Z.land (not32 x) z).
Definition Maj (x y z : word) : word :=
  Z.lxor (Z.lxor (Z.land x y) (Z.land x z)) (Z.land y z).
Definition bigSigma0 (x : word) : word :=
  Z.lxor (Z.lxor (rotr 2 x) (rotr 13 x)) (rotr 22 x).
Definition bigSigma1 (x : word) : word :=
  Z.lxor (Z.lxor (rotr 6 x) (rotr 11 x)) (rotr 25 x).
Definition smallSigma0 (x : word) : word :=
  Z.lxor (Z.lxor (rotr 7 x) (rotr 18 x)) (Z.shiftr x 3).
Definition smallSigma1 (x : word) : word :=
  Z.lxor (Z.lxor (rotr 17 x) (rotr 19 x)) (Z.shiftr x 10).

(** The constants.  Like crypto-js, which computes them when it is loaded,
    the round constants are the first 32 bits of the fractional parts of
    the cube roots of the first 64 primes, and the initial state those of
    the square roots of the first 8 primes. *)
Definition isPrime (n : Z) : bool :=
  forallb (fun d => negb (n mod d =? 0)) (map Z.of_nat (seq 2 (Z.to_nat n - 2))).

Definition primes : list Z :=
  filter isPrime (map Z.of_nat (seq 2 310)).

(** Largest [r < 2^bits] with [r ^ 3 <= n]. *)
Fixpoint cubeRoot (bits : nat) (n r : Z) : Z :=
  match bits with
  | O => r
  | S b =>
      let r' := r + 2 ^ Z.of_nat b in
      cubeRoot b n (if r' * r' * r' <=? n then r' else r)
  end.

Definition fracSqrt (p : Z) : word := wrap32 (Z.sqrt (p * 2 ^ 64)).
Definition fracCbrt (p : Z) : word := wrap32 (cubeRoot 40 (p * 2 ^ 96) 0).

Definition H0 : list word := Eval vm_compute in map fracSqrt (firstn 8 primes).
Definition K : list word := Eval vm_compute in map fracCbrt primes.

(** The hash state: eight words. *)
Record state := State {
  sa : word; sb : word; sc : word; sd : word;
  se : word; sf : word; sg : word; sh : word }.

Definition initial : state :=
  match H0 with
  | [a; b; c; d; e; f; g; h] => State a b c d e f g h
  | _ => State 0 0 0 0 0 0 0 0
  end.

(** One round, on the working variables and a window of the last sixteen
    words of the message schedule: the round consumes [W t], the head of
    the window, and appends [W (t + 16)]. *)
Definition nextW (w : list word) : word :=
  add32 (add32 (smallSigma1 (nth 14 w 0)) (nth 9 w 0))
        (add32 (smallSigma0 (nth 1 w 0)) (nth 0 w 0)).

Definition round (sw : state * list word) (k : word) : state * list word :=
  let '(State a b c d e f g h, w) := sw in
  let t1 := add32 (add32 (add32 h (bigSigma1 e)) (add32 (Ch e f g) k)) (nth 0 w 0) in
  let t2 := add32 (bigSigma0 a) (Maj a b c) in
  (State (add32 t1 t2) a b c (add32 d t1) e f g, tl w ++ [nextW w]).

Definition compress (s : state) (block : list word) : state :=
  let '(State a b c d e f g h) := fst (fold_left round K (s, block)) in
  State (add32 (sa s) a) (add32 (sb s) b) (add32 (sc s) c) (add32 (sd s) d)
        (add32 (se s) e) (add32 (sf s) f) (add32 (sg s) g) (add32 (sh s) h).

(** Padding: a bit 1, zeros up to 56 modulo 64 bytes, and the length of
    the message in bits as a 64-bit big-endian integer. *)
Definition bigEndian (n : nat) (x : Z) : list Z :=
  map (fun i => Z.land (Z.shiftr x (8 * Z.of_nat i)) 255) (rev (seq 0 n)).

Definition pad (msg : list Z) : list Z :=
  let len := Z.of_nat (length msg) in
  msg ++ [128] ++ repeat 0 (Z.to_nat ((55 - len) mod 64)) ++ bigEndian 8 (8 * len).

Fixpoint toWords (n : nat) (bytes : list Z) : list word :=
  match n, bytes with
  | S n', b0 :: b1 :: b2 :: b3 :: rest =>
      (((b0 * 256 + b1) * 256 + b2) * 256 + b3) :: toWords n' rest
  | _, _ => []
  end.

Fixpoint hashBlocks (n : nat) (s : state) (ws : list word) : state :=
  match n, ws with
  | S n', _ :: _ => hashBlocks n' (compress s (firstn 16 ws)) (skipn 16 ws)
  | _, _ => s
  end.

Definition sha256 (msg : list Z) : state :=
  let bytes := pad msg in
  hashBlocks (length bytes) initial (toWords (length bytes) bytes).

(** [Utf8.parse] on a string of code units below U+0100: the bytes of its
    UTF-8 encoding, one or two for each code unit.  ([UTF16.utf8Parse]
    is the function on every string.) *)
Definition utf8Unit (c : ascii) : list Z :=
  let u := Z.of_N (N_of_ascii c) in
  if u <? 128 then [u]
  else [Z.lor 192 (Z.shiftr u 6); Z.lor 128 (Z.land u 63)].

Definition utf8Parse (s : string) : list Z :=
  flat_map utf8Unit (list_ascii_of_string s).

(** [WordArray.toString()]: the [Hex] encoder, lower case, two digits for
    each byte. *)
Definition hexDigit (x : Z) : ascii :=
  nth (Z.to_nat (x mod 16))
    (list_ascii_of_string "0123456789abcdef") "0"%char.

Definition hexWord (w : word) (rest : string) : string :=
  String (hexDigit (Z.shiftr w 28)) (String (hexDigit (Z.shiftr w 24))
  (String (hexDigit (Z.shiftr w 20)) (String (hexDigit (Z.shiftr w 16))
  (String (hexDigit (Z.shiftr w 12)) (String (hexDigit (Z.shiftr w 8))
  (String (hexDigit (Z.shiftr w 4)) (String (hexDigit w) rest))))))).

Definition hexState (s : state) : string :=
  hexWord (sa s) (hexWord (sb s) (hexWord (sc s) (hexWord (sd s)
  (hexWord (se s) (hexWord (sf s) (hexWord (sg s) (hexWord (sh s) ""))))))).

(** [CryptoJS.SHA256(message).toString()] for a string [message]. *)
Definition SHA256 (message : string) : string :=
  hexState (sha256 (utf8Parse message)).

End CryptoJS.

(** ** The JavaScript operations the class uses *)

Module JS.

(** [Number::toString] of a number holding an integer from -2^53 to 2^53:
    its decimal digits, with a minus sign when it is negative.  (Larger
    numbers print at most 17 significant digits, and an exponent from
    10^21 on.) *)
Definition toString (n : Z) : string :=
  NilZero.string_of_int (Z.to_int n).

(** [n++] on a number holding an integer from -2^53 to 2^53.  Numbers are
    IEEE doubles: up to 2^53 the successor is exact, and at 2^53 the sum
    [2^53 + 1] is rounded back to 2^53.  ([incrementDouble] is the
    increment outside the range too.) *)
Definition MAX_EXACT : Z := 2 ^ 53.

Definition increment (n : Z) : Z :=
  if n <? MAX_EXACT then n + 1 else n.

(** [s.substring(start, end)]: both indices are clamped to the length and
    swapped when they are out of order. *)
Definition substring (start end_ : nat) (s : string) : string :=
  let len := String.length s in
  let a := Nat.min start len in
  let b := Nat.min end_ len in
  String.substring (Nat.min a b) (Nat.max a b - Nat.min a b) s.

(** [Array(n).join(sep)]: the [n] empty slots print as empty strings, so
    the result is [n - 1] copies of the separator. *)
Fixpoint copies (n : nat) (sep : string) : string :=
  match n with
  | O => ""
  | S n' => sep +:+ copies n' sep
  end.

Definition arrayJoin (n : nat) (sep : string) : string :=
  copies (Nat.pred n) sep.

(** [JSON.stringify] of a string: the string between double quotes, with
    the double quote, the backslash and the control characters escaped. *)
Definition hex4 (u : Z) : string :=
  String (CryptoJS.hexDigit (Z.shiftr u 12)) (String (CryptoJS.hexDigit (Z.shiftr u 8))
  (String (CryptoJS.hexDigit (Z.shiftr u 4)) (String (CryptoJS.hexDigit u) ""))).

Definition backslash : ascii := "092"%char.
Definition dquote : ascii := "034"%char.

Definition quoteUnit (c : ascii) : string :=
  let u := Z.of_N (N_of_ascii c) in
  if u =? 8 then String backslash "b"
  else if u =? 9 then String backslash "t"
  else if u =? 10 then String backslash "n"
  else if u =? 12 then String backslash "f"
  else if u =? 13 then String backslash "r"
  else if u =? 34 then String backslash (String dquote "")
  else if u =? 92 then String backslash (String backslash "")
  else if u <? 32 then String backslash ("u" +:+ hex4 u)
  else String c "".

Fixpoint quoteUnits (s : string) : string :=
  match s with
  | EmptyString => ""
  | String c rest => quoteUnit c +:+ quoteUnits rest
  end.

Definition JSON_stringify (s : string) : string :=
  String dquote (quoteUnits s +:+ String dquote "").

End JS.

(** ** src/index.ts *)

(** [const DIFFICULTY = 4] *)
Definition DIFFICULTY : nat := 4.

(** [class Block]: its six fields. *)
Record Block := mkBlock {
  index : Z;
  timestamp : Z;
  data : string;
  previousHash : string;
  hash : string;
  nonce : Z }.

Definition set_hash (h : string) (b : Block) : Block :=
  mkBlock (index b) (timestamp b) (data b) (previousHash b) h (nonce b).
Definition set_nonce (n : Z) (b : Block) : Block :=
  mkBlock (index b) (timestamp b) (data b) (previousHash b) (hash b) n.
Definition set_data (d : string) (b : Block) : Block :=
  mkBlock (index b) (timestamp b) d (previousHash b) (hash b) (nonce b).

(** [calculateHash()]: the five operands of the sum are joined from left
    to right; the numbers are converted to strings on the way. *)
Definition calculateHash (this : Block) : string :=
  CryptoJS.SHA256
    ((((JS.toString (index this) +:+ previousHash this)
       +:+ JS.toString (timestamp this))
      +:+ JS.JSON_stringify (data this))
     +:+ JS.toString (nonce this)).

(** [constructor(index, data, previousHash = '')]: an omitted (undefined)
    third argument is [None]; [now] is the value of [Date.now()]. *)
Definition constructor (now : Z) (index0 : Z) (data0 : string)
    (previousHash0 : option string) : Block :=
  let this :=
    mkBlock index0 now data0 (default "" previousHash0) "" 0 in
  set_hash (calculateHash this) this.

(** [isValidHash(hash)] *)
Definition isValidHash (hash0 : string) : bool :=
  String.eqb (JS.substring 0 DIFFICULTY hash0) (JS.arrayJoin (DIFFICULTY + 1) "0").

(** The condition of the [while] loop of [mineBlock]. *)
Definition mustContinue (this : Block) : bool :=
  negb (String.eqb (JS.substring 0 DIFFICULTY (hash this))
                   (JS.arrayJoin (DIFFICULTY + 1) "0")).

(** The body of the loop: [this.nonce++; this.hash = this.calculateHash()]. *)
Definition mineStep (this : Block) : Block :=
  let this1 := set_nonce (JS.increment (nonce this)) this in
  set_hash (calculateHash this1) this1.

(** [mineBlock()] as a transformation of the fields of [this]: the loop,
    with at most [fuel] executions of its body. *)
Fixpoint mineBlock (fuel : nat) (this : Block) : option Block :=
  if mustContinue this then
    match fuel with
    | O => None
    | S fuel' => mineBlock fuel' (mineStep this)
    end
  else Some this.

(** The fingerprint the block would have with nonce [n]: what
    [calculateHash()] returns once [this.nonce] is [n]. *)
Definition fingerprint (this : Block) (n : Z) : string :=
  calculateHash (set_nonce n this).

(** The program state around a call: the blocks that exist, by reference,
    and the lines written by [console.log]. *)
Record World := mkWorld {
  heap : gmap positive Block;
  console : list string }.

(** [this.mineBlock()] on the block that the reference [this] points to:
    the first line of output, the loop and the second line.  [None] stands
    for a loop that has not finished within [fuel] iterations (and for a
    reference without a block, which no program holds). *)
Definition runMineBlock (fuel : nat) (this : positive) (w : World) : option World :=
  b ← heap w !! this;
  let started :=
    console w ++ [("Starting to mine block #" +:+ JS.toString (index b)) +:+ "..."] in
  b' ← mineBlock fuel b;
  Some (mkWorld (<[this := b']> (heap w))
          (started ++ [(("Block #" +:+ JS.toString (index b')) +:+ " mined: ") +:+ hash b'])).

(** The mining algorithm in the words of the specification (section 4.2):
    set the nonce to 0 and compute the fingerprint, then, while it does not
    satisfy the difficulty predicate, add 1 to the nonce and recompute. *)
Definition spec_zeros (difficulty : nat) : string :=
  string_of_list_ascii (repeat "0"%char difficulty).

Definition spec_is_valid (h : string) : bool :=
  String.prefix (spec_zeros DIFFICULTY) h.

Fixpoint spec_search (fuel : nat) (this : Block) : option Block :=
  if spec_is_valid (hash this) then Some this
  else
    match fuel with
    | O => None
    | S fuel' =>
        let this1 := set_nonce (nonce this + 1) this in
        spec_search fuel' (set_hash (calculateHash this1) this1)
    end.

Definition spec_mine (fuel : nat) (this : Block) : option Block :=
  let this0 := set_nonce 0 this in
  spec_search fuel (set_hash (calculateHash this0) this0).

(** The blocks a program reaches without writing to a field directly:
    those made by the constructor, and those left by a call of
    [mineBlock] that returned. *)
Inductive Lifecycle : Block -> Prop :=
  | Lifecycle_new now index0 data0 previousHash0 :
      Lifecycle (constructor now index0 data0 previousHash0)
  | Lifecycle_mined fuel b b' :
      Lifecycle b -> mineBlock fuel b = Some b' -> Lifecycle b'.

(** A hexadecimal digit, as the [Hex] encoder writes them. *)
Definition isHexDigit (c : ascii) : bool :=
  existsb (Ascii.eqb c) (list_ascii_of_string "0123456789abcdef").

(** ** Concrete blocks *)

(** The first block of the driver, created at the instant 1700000036733. *)
Definition genesis : Block :=
  constructor 1700000036733 0 "Genesis Block" (Some "0").

Definition genesisMined : Block :=
  mkBlock 0 1700000036733 "Genesis Block" "0"
    "000072c7a007339a9a9f39ad523385ef96046eead6462accbef9fce984e3f558" 2.

(** The mined block after [block.data = "Tampered Data!"]. *)
Definition tampered : Block := set_data "Tampered Data!" genesisMined.

(** A block whose nonce has reached 2^53, with the hash of its fields. *)
Definition saturated : Block :=
  mkBlock 0 1700000022528 "Genesis Block" "0"
    "8a281347d95c2a9d9339f4818231611b860d484952ccc2fa9bb1d4fcd28958e4"
    9007199254740992.

(** The same block one step earlier, at nonce 2^53 - 1. *)
Definition nearlySaturated : Block :=
  mkBlock 0 1700000022528 "Genesis Block" "0"
    "c2aff4dbe23806decae7d33549fbf6051c79fa07ba43a3d4e9d3b8863ce87665"
    9007199254740991.

(** Two blocks side by side, as the driver holds them. *)
Definition twoBlocks : World :=
  mkWorld (<[1%positive := genesis]> (<[2%positive := saturated]> ∅)) [].

Definition twoBlocksMined : World :=
  mkWorld (<[1%positive := genesisMined]> (<[2%positive := saturated]> ∅))
    ["Starting to mine block #0...";
     "Block #0 mined: 000072c7a007339a9a9f39ad523385ef96046eead6462accbef9fce984e3f558"].

(** ** The range where the numbers are exact *)

(** The integers on which the embedding of the numbers is exact: every
    integer of this range is a number, [JS.increment] is [n++] on it and
    [JS.toString] prints what the program prints.  Outside the range a
    number has gaps between its neighbours and the program rounds. *)
Definition exactInteger (n : Z) : Prop := - 2 ^ 53 <= n <= 2 ^ 53.

(** [n++] on every number that holds an integer, with the rounding to the
    nearest number, ties to the even significand: between 2^53 and 2^54 in
    magnitude the numbers are the even integers, and [n + 1] falls half way
    between two of them; from 2^54 on, [n + 1] is nearer to [n]. *)
Definition incrementDouble (n : Z) : Z :=
  if (- 2 ^ 53 <=? n) && (n <? 2 ^ 53) then n + 1
  else if Z.abs n <? 2 ^ 54 then (if n mod 4 =? 0 then n else n + 2)
  else n.

(** ** Strings of 16-bit code units *)

(** A JavaScript string in general: the list of its UTF-16 code units.
    The class above is the restriction to the code units below U+0100. *)
Module UTF16.

Definition ofString (s : string) : list Z :=
  map (fun c => Z.of_N (N_of_ascii c)) (list_ascii_of_string s).

Definition isLeading (u : Z) : bool := (0xD800 <=? u) && (u <? 0xDC00).
Definition isTrailing (u : Z) : bool := (0xDC00 <=? u) && (u <? 0xE000).

Definition continuation (x : Z) : Z := Z.lor 0x80 (Z.land x 0x3F).

(** The UTF-8 bytes of one code point. *)
Definition utf8CodePoint (cp : Z) : list Z :=
  if cp <? 0x80 then [cp]
  else if cp <? 0x800 then
    [Z.lor 0xC0 (Z.shiftr cp 6); continuation cp]
  else if cp <? 0x10000 then
    [Z.lor 0xE0 (Z.shiftr cp 12); continuation (Z.shiftr cp 6); continuation cp]
  else
    [Z.lor 0xF0 (Z.shiftr cp 18); continuation (Z.shiftr cp 12);
     continuation (Z.shiftr cp 6); continuation cp].

(** [Utf8.parse], which crypto-js applies to a string message: the bytes
    of [unescape(encodeURIComponent(s))].  [encodeURIComponent] throws
    [URIError] on a surrogate that is not part of a pair: [None]. *)
Fixpoint utf8Parse (us : list Z) : option (list Z) :=
  match us with
  | [] => Some []
  | u :: rest =>
      if isLeading u then
        match rest with
        | v :: rest' =>
            if isTrailing v then
              option_map
                (app (utf8CodePoint (0x10000 + (u - 0xD800) * 0x400 + (v - 0xDC00))))
                (utf8Parse rest')
            else None
        | [] => None
        end
      else if isTrailing u then None
      else option_map (app (utf8CodePoint u)) (utf8Parse rest)
  end.

(** [s.isWellFormed()]: no surrogate outside a pair. *)
Definition isWellFormed (us : list Z) : bool :=
  match utf8Parse us with
  | Some _ => true
  | None => false
  end.

(** [JSON.stringify] of a string: as on the short strings, and a
    surrogate outside a pair is written as an escape. *)
Definition escapeUnit (u : Z) : list Z :=
  ofString (String JS.backslash ("u" +:+ JS.hex4 u)).

Definition quotePlain (u : Z) : list Z :=
  if u =? 8 then ofString (String JS.backslash "b")
  else if u =? 9 then ofString (String JS.backslash "t")
  else if u =? 10 then ofString (String JS.backslash "n")
  else if u =? 12 then ofString (String JS.backslash "f")
  else if u =? 13 then ofString (String JS.backslash "r")
  else if u =? 34 then ofString (String JS.backslash (String JS.dquote ""))
  else if u =? 92 then ofString (String JS.backslash (String JS.backslash ""))
  else if u <? 32 then escapeUnit u
  else [u].

Fixpoint quoteUnits (us : list Z) : list Z :=
  match us with
  | [] => []
  | u :: rest =>
      if isLeading u then
        match rest with
        | v :: rest' =>
            if isTrailing v then u :: v :: quoteUnits rest'
            else escapeUnit u ++ quoteUnits rest
        | [] => escapeUnit u
        end
      else if isTrailing u then escapeUnit u ++ quoteUnits rest
      else quotePlain u ++ quoteUnits rest
  end.

Definition JSON_stringify (us : list Z) : list Z :=
  34 :: quoteUnits us ++ [34].

End UTF16.

(** The fields that [calculateHash()] reads, with strings in general. *)
Record WideBlock := mkWideBlock {
  wideIndex : Z;
  wideTimestamp : Z;
  wideData : list Z;
  widePreviousHash : list Z;
  wideNonce : Z }.

(** The message of [calculateHash()], and the call itself: [None] when
    it throws. *)
Definition wideMessage (this : WideBlock) : list Z :=
  (((UTF16.ofString (JS.toString (wideIndex this)) ++ widePreviousHash this)
    ++ UTF16.ofString (JS.toString (wideTimestamp this)))
   ++ UTF16.JSON_stringify (wideData this))
  ++ UTF16.ofString (JS.toString (wideNonce this)).

Definition calculateHashWide (this : WideBlock) : option string :=
  match UTF16.utf8Parse (wideMessage this) with
  | Some bytes => Some (CryptoJS.hexState (CryptoJS.sha256 bytes))
  | None => None
  end.

Definition widen (b : Block) : WideBlock :=
  mkWideBlock (index b) (timestamp b) (UTF16.ofString (data b))
    (UTF16.ofString (previousHash b)) (nonce b).

(** A block whose previous hash is the single code unit U+D800. *)
Definition loneSurrogate : WideBlock :=
  mkWideBlock 0 1700000036733 (UTF16.ofString "Genesis Block") [0xD800] 0.

(** A block with a euro sign in the previous hash and a pair of
    surrogates (U+1F600) in the data. *)
Definition widePair : WideBlock :=
  mkWideBlock 0 1700000036733 [0x61; 0xD83D; 0xDE00] [0x20AC] 0.

(** ** SHA-256 as the standard states it (FIPS 180-4) *)

Module FIPS180.

(** Section 5.1.1: after the message of [l] bits come a bit 1, [k] bits 0
    with [l + 1 + k = 448] modulo 512 and [k] least, and [l] on 64 bits. *)
Definition padding (len : Z) : list Z :=
  let l := 8 * len in
  let k := (448 - (l + 1)) mod 512 in
  (128 :: repeat 0 (Z.to_nat ((k + 1) / 8 - 1))) ++ CryptoJS.bigEndian 8 l.

(** Section 5.2.1: block [i] is the words [16 i] to [16 i + 15]. *)
Definition M (words : list Z) (i : nat) : list Z :=
  map (fun j => nth (16 * i + j) words 0) (seq 0 16).

(** Section 6.2.2, step 1: the message schedule, [W t] from the four
    earlier words at [t - 2], [t - 7], [t - 15] and [t - 16]. *)
Fixpoint extend (n : nat) (w : list Z) : list Z :=
  match n with
  | O => w
  | S n' =>
      let t := length w in
      extend n'
        (w ++ [(CryptoJS.smallSigma1 (nth (t - 2) w 0) + nth (t - 7) w 0
                + CryptoJS.smallSigma0 (nth (t - 15) w 0) + nth (t - 16) w 0)
               mod 2 ^ 32])
  end.

Definition W (block : list Z) : list Z := extend 48 block.

(** Step 3: one round on the working variables [a] to [h]. *)
Definition step (v : CryptoJS.state) (kw : Z * Z) : CryptoJS.state :=
  let '(CryptoJS.State a b c d e f g h) := v in
  let T1 := (h + CryptoJS.bigSigma1 e + CryptoJS.Ch e f g + fst kw + snd kw) mod 2 ^ 32 in
  let T2 := (CryptoJS.bigSigma0 a + CryptoJS.Maj a b c) mod 2 ^ 32 in
  CryptoJS.State ((T1 + T2) mod 2 ^ 32) a b c ((d + T1) mod 2 ^ 32) e f g.

(** Steps 2 and 4: the rounds start from the hash value so far and their
    result is added to it. *)
Definition block (H : CryptoJS.state) (m : list Z) : CryptoJS.state :=
  let v := fold_left step (combine CryptoJS.K (W m)) H in
  CryptoJS.State
    ((CryptoJS.sa v + CryptoJS.sa H) mod 2 ^ 32) ((CryptoJS.sb v + CryptoJS.sb H) mod 2 ^ 32)
    ((CryptoJS.sc v + CryptoJS.sc H) mod 2 ^ 32) ((CryptoJS.sd v + CryptoJS.sd H) mod 2 ^ 32)
    ((CryptoJS.se v + CryptoJS.se H) mod 2 ^ 32) ((CryptoJS.sf v + CryptoJS.sf H) mod 2 ^ 32)
    ((CryptoJS.sg v + CryptoJS.sg H) mod 2 ^ 32) ((CryptoJS.sh v + CryptoJS.sh H) mod 2 ^ 32).

Definition digest (msg : list Z) : CryptoJS.state :=
  let bytes := msg ++ padding (Z.of_nat (length msg)) in
  let words := CryptoJS.toWords (length bytes) bytes in
  fold_left (fun H i => block H (M words i)) (seq 0 (length words / 16))
    CryptoJS.initial.

End FIPS180.

(** The message schedule as the rounds of [CryptoJS.round] see it: the
    window after one round, and the words that [n] rounds take from the
    head of the window.  (Devices of the proofs.) *)
Definition slide (w : list Z) : list Z := tl w ++ [CryptoJS.nextW w].

Fixpoint consumed (n : nat) (w : list Z) : list Z :=
  match n with
  | O => []
  | S n' => nth 0 w 0 :: consumed n' (slide w)
  end.

(** ** The driver *)

(** The message that [calculateHash()] hands to [CryptoJS.SHA256]. *)
Definition hashInput (this : Block) : string :=
  (((JS.toString (index this) +:+ previousHash this)
    +:+ JS.toString (timestamp this))
   +:+ JS.JSON_stringify (data this))
  +:+ JS.toString (nonce this).

(** Statements of a function body: they read and change the program
    state, and the loop inside [mineBlock] may not finish ([None]). *)
Definition Run (A : Type) : Type := World -> option (A * World).

Definition ret {A : Type} (a : A) : Run A := fun w => Some (a, w).

Definition bind {A B : Type} (m : Run A) (k : A -> Run B) : Run B :=
  fun w =>
    match m w with
    | Some (a, w') => k a w'
    | None => None
    end.

Notation "x <~ m ;; k" := (bind m (fun x => k))
  (at level 100, m at next level, right associativity).
Notation "m ;;; k" := (bind m (fun _ => k))
  (at level 100, right associativity).

(** [console.log(line)] *)
Definition consoleLog (line : string) : Run unit :=
  fun w => Some (tt, mkWorld (heap w) (console w ++ [line])).

(** [new Block(index, data, previousHash)], when [Date.now()] is [now]:
    the block is stored under a reference that is not in use. *)
Definition newBlock (now index0 : Z) (data0 : string)
    (previousHash0 : option string) : Run positive :=
  fun w =>
    let ref := fresh (dom (heap w)) in
    Some (ref, mkWorld (<[ref := constructor now index0 data0 previousHash0]> (heap w))
                 (console w)).

(** [block.mineBlock()] *)
Definition callMineBlock (fuel : nat) (ref : positive) : Run unit :=
  fun w =>
    match runMineBlock fuel ref w with
    | Some w' => Some (tt, w')
    | None => None
    end.

(** Reading the fields of [block], and [block.data = data0]. *)
Definition readBlock (ref : positive) : Run Block :=
  fun w =>
    match heap w !! ref with
    | Some b => Some (b, w)
    | None => None
    end.

Definition writeData (ref : positive) (data0 : string) : Run unit :=
  fun w =>
    match heap w !! ref with
    | Some b => Some (tt, mkWorld (<[ref := set_data data0 b]> (heap w)) (console w))
    | None => None
    end.

(** A boolean inside a template literal, and the line feed. *)
Definition boolToString (b : bool) : string :=
  if b then "true" else "false".

Definition LF : string := String "010" "".

(** [simulatePoW()]; [now1] .. [now4] are the values of [Date.now()] in
    the four constructor calls, and every call of [mineBlock] may run its
    loop body [fuel] times. *)
Definition simulatePoW (fuel : nat) (now1 now2 now3 now4 : Z) : Run unit :=
  consoleLog "--- Proof of Work (PoW) Simulation ---" ;;;
  consoleLog ("Difficulty (number of leading zeros): "
              +:+ JS.toString (Z.of_nat DIFFICULTY) +:+ LF) ;;;
  genesisBlock <~ newBlock now1 0 "Genesis Block" (Some "0") ;;
  callMineBlock fuel genesisBlock ;;;
  g <~ readBlock genesisBlock ;;
  consoleLog ("Hash of Genesis Block: " +:+ hash g +:+ ", Nonce: "
              +:+ JS.toString (nonce g) +:+ LF) ;;;
  g <~ readBlock genesisBlock ;;
  block2 <~ newBlock now2 1 "Transaction Data 1" (Some (hash g)) ;;
  callMineBlock fuel block2 ;;;
  b <~ readBlock block2 ;;
  consoleLog ("Hash of Block 2: " +:+ hash b +:+ ", Nonce: "
              +:+ JS.toString (nonce b) +:+ LF) ;;;
  consoleLog (LF +:+ "Checking validity of Block 2...") ;;;
  b <~ readBlock block2 ;;
  let isBlock2Valid := isValidHash (hash b) in
  consoleLog ("Block 2 valid: " +:+ boolToString isBlock2Valid) ;;;
  b <~ readBlock block2 ;;
  consoleLog ("Recalculated hash of Block 2: " +:+ calculateHash b) ;;;
  b <~ readBlock block2 ;;
  consoleLog ("Stored hash in Block 2: " +:+ hash b) ;;;
  b <~ readBlock block2 ;;
  consoleLog ("Checking if stored hash matches recalculated hash: "
              +:+ boolToString (String.eqb (hash b) (calculateHash b)) +:+ LF) ;;;
  b <~ readBlock block2 ;;
  block3 <~ newBlock now3 2 "Transaction Data 2" (Some (hash b)) ;;
  callMineBlock fuel block3 ;;;
  b <~ readBlock block3 ;;
  consoleLog ("Hash of Block 3: " +:+ hash b +:+ ", Nonce: "
              +:+ JS.toString (nonce b) +:+ LF) ;;;
  consoleLog "Checking validity of Block 3..." ;;;
  b <~ readBlock block3 ;;
  let isBlock3Valid := isValidHash (hash b) in
  consoleLog ("Block 3 valid: " +:+ boolToString isBlock3Valid) ;;;
  b <~ readBlock block3 ;;
  consoleLog ("Recalculated hash of Block 3: " +:+ calculateHash b) ;;;
  b <~ readBlock block3 ;;
  consoleLog ("Stored hash in Block 3: " +:+ hash b) ;;;
  b <~ readBlock block3 ;;
  consoleLog ("Checking if stored hash matches recalculated hash: "
              +:+ boolToString (String.eqb (hash b) (calculateHash b)) +:+ LF) ;;;
  consoleLog "--- Example of an invalid block (tampered data) ---" ;;;
  b <~ readBlock block3 ;;
  tamperedBlock <~ newBlock now4 3 "Original Data" (Some (hash b)) ;;
  callMineBlock fuel tamperedBlock ;;;
  b <~ readBlock tamperedBlock ;;
  consoleLog (LF +:+ "Tampered block (before tampering): " +:+ hash b) ;;;
  writeData tamperedBlock "Tampered Data!" ;;;
  b <~ readBlock tamperedBlock ;;
  let isTamperedBlockValid := isValidHash (calculateHash b) in
  b <~ readBlock tamperedBlock ;;
  consoleLog ("Hash of tampered block after changing data: " +:+ calculateHash b) ;;;
  consoleLog ("Tampered block valid (based on new hash): "
              +:+ boolToString isTamperedBlockValid
              +:+ " (expected to be false because the hash changed and no longer matches the original PoW)") ;;;
  b <~ readBlock tamperedBlock ;;
  consoleLog ("Checking if stored hash matches recalculated hash: "
              +:+ boolToString (String.eqb (hash b) (calculateHash b))
              +:+ " (expected to be false)").

(** Reading back one character written by [JSON.stringify]: the
    character and what follows it, or nothing at the closing quote.  (A
    device of the proofs; the program never parses.) *)
Definition hexValue (c : ascii) : Z :=
  let u := Z.of_N (N_of_ascii c) in
  if u <? 58 then u - 48 else u - 87.

Definition unquoteUnit (s : string) : option (ascii * string) :=
  match s with
  | EmptyString => None
  | String c rest =>
      if Ascii.eqb c JS.dquote then None
      else if Ascii.eqb c JS.backslash then
        match rest with
        | String e rest' =>
            if Ascii.eqb e "b" then Some ("008"%char, rest')
            else if Ascii.eqb e "t" then Some ("009"%char, rest')
            else if Ascii.eqb e "n" then Some ("010"%char, rest')
            else if Ascii.eqb e "f" then Some ("012"%char, rest')
            else if Ascii.eqb e "r" then Some ("013"%char, rest')
            else if Ascii.eqb e "u" then
              match rest' with
              | String _ (String _ (String h1 (String h0 rest''))) =>
                  Some (ascii_of_N (Z.to_N (16 * hexValue h1 + hexValue h0)), rest'')
              | _ => None
              end
            else Some (e, rest')
        | EmptyString => None
        end
      else Some (c, rest)
  end.

(** Two blocks that hand the same messages to the hash function, now and
    after any number of increments of the nonce: [index] and
    [previousHash] enter the message only through their concatenation. *)
Definition sameMessages (a b : Block) : Prop :=
  JS.toString (index a) +:+ previousHash a = JS.toString (index b) +:+ previousHash b /\
  timestamp a = timestamp b /\ data a = data b /\ nonce a = nonce b.

(** The program state before anything has run. *)
Definition startWorld : World := mkWorld ∅ [].

(** The 28 lines that a complete run of [simulatePoW()] writes, given the
    four blocks as they are when the run ends. *)
Definition simulationOutput (b1 b2 b3 b4 : Block) : list string :=
  [ "--- Proof of Work (PoW) Simulation ---";
    "Difficulty (number of leading zeros): 4" +:+ LF;
    "Starting to mine block #0...";
    "Block #0 mined: " +:+ hash b1;
    "Hash of Genesis Block: " +:+ hash b1 +:+ ", Nonce: "
      +:+ JS.toString (nonce b1) +:+ LF;
    "Starting to mine block #1...";
    "Block #1 mined: " +:+ hash b2;
    "Hash of Block 2: " +:+ hash b2 +:+ ", Nonce: "
      +:+ JS.toString (nonce b2) +:+ LF;
    LF +:+ "Checking validity of Block 2...";
    "Block 2 valid: " +:+ boolToString (isValidHash (hash b2));
    "Recalculated hash of Block 2: " +:+ calculateHash b2;
    "Stored hash in Block 2: " +:+ hash b2;
    "Checking if stored hash matches recalculated hash: "
      +:+ boolToString (String.eqb (hash b2) (calculateHash b2)) +:+ LF;
    "Starting to mine block #2...";
    "Block #2 mined: " +:+ hash b3;
    "Hash of Block 3: " +:+ hash b3 +:+ ", Nonce: "
      +:+ JS.toString (nonce b3) +:+ LF;
    "Checking validity of Block 3...";
    "Block 3 valid: " +:+ boolToString (isValidHash (hash b3));
    "Recalculated hash of Block 3: " +:+ calculateHash b3;
    "Stored hash in Block 3: " +:+ hash b3;
    "Checking if stored hash matches recalculated hash: "
      +:+ boolToString (String.eqb (hash b3) (calculateHash b3)) +:+ LF;
    "--- Example of an invalid block (tampered data) ---";
    "Starting to mine block #3...";
    "Block #3 mined: " +:+ hash b4;
    LF +:+ "Tampered block (before tampering): " +:+ hash b4;
    "Hash of tampered block after changing data: " +:+ calculateHash b4;
    "Tampered block valid (based on new hash): "
      +:+ boolToString (isValidHash (calculateHash b4))
      +:+ " (expected to be false because the hash changed and no longer matches the original PoW)";
    "Checking if stored hash matches recalculated hash: "
      +:+ boolToString (String.eqb (hash b4) (calculateHash b4))
      +:+ " (expected to be false)" ].

(** A complete run: the four instants, and the blocks it leaves. *)
Definition runBlock1 : Block := genesisMined.
Definition runBlock2 : Block :=
  mkBlock 1 1700000046872 "Transaction Data 1"
    "000072c7a007339a9a9f39ad523385ef96046eead6462accbef9fce984e3f558"
    "0000ac44284ba1204ceef7ac340591804c4d21ca6389bba54441d66cdb7eff18" 3.
Definition runBlock3 : Block :=
  mkBlock 2 1700000062607 "Transaction Data 2"
    "0000ac44284ba1204ceef7ac340591804c4d21ca6389bba54441d66cdb7eff18"
    "000088d17963822e7f3a8e970b0f2f1cade320a282818619e08bc6a1afa008e9" 3.
Definition runBlock4 : Block :=
  mkBlock 3 1700000073470 "Tampered Data!"
    "000088d17963822e7f3a8e970b0f2f1cade320a282818619e08bc6a1afa008e9"
    "00006d4330f2bef9c5e73f2455b71c574d1cce9709741b20faab769b5a39d66b" 3.

Definition runWorld : World :=
  mkWorld
    (<[4%positive := runBlock4]> (<[3%positive := runBlock3]>
       (<[2%positive := runBlock2]> (<[1%positive := runBlock1]> ∅))))
    (simulationOutput runBlock1 runBlock2 runBlock3 runBlock4).

Arguments CryptoJS.SHA256 : simpl never.
Arguments calculateHash : simpl never.

(** Closed equations between runs of the program are settled by running
    both sides. *)
Ltac by_running := vm_compute; reflexivity.

(** ** SHA-256: agreement with the test vectors of FIPS 180-4 *)

Example K_first_last :
  length CryptoJS.K = 64%nat /\ nth 0 CryptoJS.K 0 = 0x428a2f98 /\
  nth 63 CryptoJS.K 0 = 0xc67178f2.
Proof. repeat split. Qed.

Example H0_first_last :
  length CryptoJS.H0 = 8%nat /\ nth 0 CryptoJS.H0 0 = 0x6a09e667 /\
  nth 7 CryptoJS.H0 0 = 0x5be0cd19.
Proof. repeat split. Qed.

Example SHA256_abc :
  CryptoJS.SHA256 "abc"
  = "ba7816bf8f01cfea414140de5dae2223b00361a396177a9cb410ff61f20015ad".
Proof. by_running. Qed.

Example SHA256_empty :
  CryptoJS.SHA256 ""
  = "e3b0c44298fc1c149afbf4c8996fb92427ae41e4649b934ca495991b7852b855".
Proof. by_running. Qed.

Example SHA256_two_blocks :
  CryptoJS.SHA256 "abcdbcdecdefdefgefghfghighijhijkijkljklmklmnlmnomnopnopq"
  = "248d6a61d20638b8e5c026930c3e6039a33ce45964ff2167f6ecedd419db06c1".
Proof. by_running. Qed.

(** ** Runs of the program on the concrete blocks *)

Example target_zeros : JS.arrayJoin (DIFFICULTY + 1) "0" = "0000".
Proof. reflexivity. Qed.

Example isValidHash_samples :
  isValidHash "0000" = true /\ isValidHash "00000f" = true /\
  isValidHash "000" = false /\ isValidHash "0001" = false /\
  isValidHash "" = false.
Proof. repeat split. Qed.

Example genesis_fields :
  genesis = mkBlock 0 1700000036733 "Genesis Block" "0"
    "4d818dd531a1ad3d4a76190a2430948e209cdfb95dc20557f85d15bc4ddaa809" 0.
Proof. by_running. Qed.

Example genesis_mining : mineBlock 2 genesis = Some genesisMined.
Proof. by_running. Qed.

Example genesis_mining_short : mineBlock 1 genesis = None.
Proof. by_running. Qed.

Example tampered_hash :
  calculateHash tampered
  = "192ce95da4e9930290bcbe5deb8a675bb17b4c176dad806887a27b83d0ba9e64".
Proof. by_running. Qed.

Example saturated_step : mineStep saturated = saturated.
Proof. by_running. Qed.

Example saturated_later_nonce :
  fingerprint saturated 9007199254740994
  = "00001027f29f9c3968180b2874dbdc35cec480e93baeea43b4d653b095151820".
Proof. by_running. Qed.

(** ** The hexadecimal rendering *)

Lemma hexDigit_isHexDigit x : isHexDigit (CryptoJS.hexDigit x) = true.
Proof.
  unfold CryptoJS.hexDigit.
  assert (Hlt : (Z.to_nat (x mod 16) < 16)%nat)
    by (pose proof (Z.mod_pos_bound x 16); lia).
  revert Hlt. generalize (Z.to_nat (x mod 16)). intros k Hk.
  do 16 (destruct k as [|k]; [reflexivity|]). lia.
Qed.

Lemma hexState_length s : String.length (CryptoJS.hexState s) = 64%nat.
Proof. reflexivity. Qed.

Lemma hexState_digits s :
  Forall (fun c => isHexDigit c = true)
    (list_ascii_of_string (CryptoJS.hexState s)).
Proof.
  unfold CryptoJS.hexState, CryptoJS.hexWord. cbn [list_ascii_of_string].
  repeat (constructor; [apply hexDigit_isHexDigit|]). constructor.
Qed.

(** ** The difficulty predicate *)

Lemma substring_none s : String.substring 0 0 s = "".
Proof. destruct s; reflexivity. Qed.

Lemma substring_four c1 c2 c3 c4 rest :
  JS.substring 0 4 (String c1 (String c2 (String c3 (String c4 rest))))
  = String c1 (String c2 (String c3 (String c4 ""))).
Proof. unfold JS.substring. cbn. rewrite substring_none. reflexivity. Qed.

Lemma isValidHash_prefix h :
  isValidHash h = true <-> exists rest, h = "0000" +:+ rest.
Proof.
  unfold isValidHash, DIFFICULTY. rewrite String.eqb_eq. split.
  - destruct h as [|c1 [|c2 [|c3 [|c4 rest]]]]; try (cbn; discriminate).
    rewrite substring_four. cbn. intros H. exists rest.
    injection H as -> -> -> ->. reflexivity.
  - intros [rest ->].
    change ("0000" +:+ rest) with (String "0" (String "0" (String "0" (String "0" rest)))).
    rewrite substring_four. reflexivity.
Qed.

Lemma spec_is_valid_prefix h :
  spec_is_valid h = true <-> exists rest, h = "0000" +:+ rest.
Proof.
  unfold spec_is_valid. change (spec_zeros DIFFICULTY) with "0000". split.
  - destruct h as [|c1 [|c2 [|c3 [|c4 rest]]]]; cbn [String.prefix];
      repeat (destruct (ascii_dec _ _) as [<-|]; [|discriminate]);
      try discriminate.
    intros _. exists rest. reflexivity.
  - intros [rest ->]. destruct rest; reflexivity.
Qed.

Lemma spec_is_valid_isValidHash h : spec_is_valid h = isValidHash h.
Proof.
  apply eq_true_iff_eq. rewrite spec_is_valid_prefix, isValidHash_prefix. reflexivity.
Qed.

(** ** The mining loop *)

Lemma calculateHash_fields a b :
  index a = index b -> previousHash a = previousHash b ->
  timestamp a = timestamp b -> data a = data b -> nonce a = nonce b ->
  calculateHash a = calculateHash b.
Proof. unfold calculateHash. intros -> -> -> -> ->. reflexivity. Qed.

Lemma fingerprint_nonce b : fingerprint b (nonce b) = calculateHash b.
Proof. apply calculateHash_fields; reflexivity. Qed.

Lemma fingerprint_mineStep b n : fingerprint (mineStep b) n = fingerprint b n.
Proof. apply calculateHash_fields; reflexivity. Qed.

Lemma mineStep_hash b : hash (mineStep b) = calculateHash (mineStep b).
Proof. apply calculateHash_fields; reflexivity. Qed.

Lemma mineStep_nonce b :
  nonce b < JS.MAX_EXACT -> nonce (mineStep b) = nonce b + 1.
Proof.
  intros H. cbn [mineStep set_hash set_nonce nonce]. unfold JS.increment.
  destruct (Z.ltb_spec (nonce b) JS.MAX_EXACT); [reflexivity | lia].
Qed.

Lemma mineStep_nonce_stuck b :
  JS.MAX_EXACT <= nonce b -> nonce (mineStep b) = nonce b.
Proof.
  intros H. cbn [mineStep set_hash set_nonce nonce]. unfold JS.increment.
  destruct (Z.ltb_spec (nonce b) JS.MAX_EXACT); [lia | reflexivity].
Qed.

Lemma mineBlock_unfold fuel b :
  mineBlock fuel b =
  if isValidHash (hash b) then Some b
  else match fuel with
       | O => None
       | S fuel' => mineBlock fuel' (mineStep b)
       end.
Proof.
  destruct fuel; cbn [mineBlock]; unfold mustContinue;
    fold (isValidHash (hash b)); destruct (isValidHash (hash b)); reflexivity.
Qed.

Lemma mineBlock_valid fuel b :
  isValidHash (hash b) = true -> mineBlock fuel b = Some b.
Proof. intros H. rewrite mineBlock_unfold, H. reflexivity. Qed.

Lemma mineBlock_invalid fuel b :
  isValidHash (hash b) = false ->
  mineBlock (S fuel) b = mineBlock fuel (mineStep b).
Proof. intros H. rewrite mineBlock_unfold, H. reflexivity. Qed.

(** Induction on the executions of the loop body. *)
Lemma mineBlock_ind (P : Block -> Block -> Prop) :
  (forall b, isValidHash (hash b) = true -> P b b) ->
  (forall b b', isValidHash (hash b) = false -> P (mineStep b) b' -> P b b') ->
  forall fuel b b', mineBlock fuel b = Some b' -> P b b'.
Proof.
  intros Hstop Hstep fuel.
  induction fuel as [|fuel IH]; intros b b'; rewrite mineBlock_unfold;
    destruct (isValidHash (hash b)) eqn:Hv; try discriminate.
  - intros [= <-]. auto.
  - intros [= <-]. auto.
  - intros H. auto.
Qed.

Lemma mineBlock_result_valid fuel b b' :
  mineBlock fuel b = Some b' -> isValidHash (hash b') = true.
Proof.
  revert fuel b b'. apply (mineBlock_ind (fun _ b' => isValidHash (hash b') = true)); auto.
Qed.

Lemma mineBlock_fields fuel b b' :
  mineBlock fuel b = Some b' ->
  index b' = index b /\ timestamp b' = timestamp b /\
  data b' = data b /\ previousHash b' = previousHash b.
Proof.
  revert fuel b b'.
  apply (mineBlock_ind (fun b b' =>
    index b' = index b /\ timestamp b' = timestamp b /\
    data b' = data b /\ previousHash b' = previousHash b)).
  - auto.
  - intros b b' _ IH. exact IH.
Qed.

Lemma mineBlock_consistent fuel b b' :
  hash b = calculateHash b -> mineBlock fuel b = Some b' ->
  hash b' = calculateHash b'.
Proof.
  intros Hc Hm. revert fuel b b' Hm Hc.
  apply (mineBlock_ind (fun b b' =>
    hash b = calculateHash b -> hash b' = calculateHash b')).
  - auto.
  - intros b b' _ IH _. apply IH, mineStep_hash.
Qed.

Lemma mineBlock_more_fuel fuel fuel' b b' :
  (fuel <= fuel')%nat -> mineBlock fuel b = Some b' -> mineBlock fuel' b = Some b'.
Proof.
  revert fuel' b. induction fuel as [|fuel IH]; intros fuel' b Hle.
  - rewrite (mineBlock_unfold 0 b), (mineBlock_unfold fuel' b).
    destruct (isValidHash (hash b)); [trivial | discriminate].
  - destruct fuel' as [|fuel']; [lia|].
    rewrite (mineBlock_unfold (S fuel) b), (mineBlock_unfold (S fuel') b).
    destruct (isValidHash (hash b)); [trivial|]. apply IH. lia.
Qed.

(** A run that finishes commits the least nonce, from the nonce of the
    block on, whose fingerprint is valid (when the stored hash is the hash
    of the fields). *)
Lemma mineBlock_least fuel b b' :
  mineBlock fuel b = Some b' -> hash b = calculateHash b ->
  nonce b <= nonce b' /\
  isValidHash (fingerprint b (nonce b')) = true /\
  forall n, nonce b <= n < nonce b' -> isValidHash (fingerprint b n) = false.
Proof.
  revert fuel b b'.
  apply (mineBlock_ind (fun b b' => hash b = calculateHash b ->
    nonce b <= nonce b' /\
    isValidHash (fingerprint b (nonce b')) = true /\
    forall n, nonce b <= n < nonce b' -> isValidHash (fingerprint b n) = false)).
  - intros b Hv Hc. rewrite fingerprint_nonce, <- Hc. repeat split; [lia | assumption | lia].
  - intros b b' Hv IH Hc.
    destruct (IH (mineStep_hash b)) as (Hle & Hvalid & Hmin).
    rewrite fingerprint_mineStep in Hvalid.
    destruct (Z.lt_ge_cases (nonce b) JS.MAX_EXACT) as [Hlt | Hge].
    + rewrite (mineStep_nonce b Hlt) in Hle, Hmin.
      repeat split; [lia | assumption |].
      intros n Hn. destruct (Z.eq_dec n (nonce b)) as [-> | Hne].
      * rewrite fingerprint_nonce, <- Hc. assumption.
      * rewrite <- fingerprint_mineStep. apply Hmin. lia.
    + rewrite (mineStep_nonce_stuck b Hge) in Hle, Hmin.
      repeat split; [lia | assumption |].
      intros n Hn. rewrite <- fingerprint_mineStep. apply Hmin. lia.
Qed.

(** Enough fuel: a valid nonce [d] steps ahead, not beyond 2^53, is
    reached, or a smaller one stops the loop, within [d] iterations. *)
Lemma mineBlock_reaches (d : nat) b :
  hash b = calculateHash b ->
  nonce b + Z.of_nat d <= JS.MAX_EXACT ->
  isValidHash (fingerprint b (nonce b + Z.of_nat d)) = true ->
  exists b', mineBlock d b = Some b'.
Proof.
  revert b. induction d as [|d IH]; intros b Hc Hle Hv.
  - exists b. apply mineBlock_valid.
    rewrite Hc, <- fingerprint_nonce. rewrite Z.add_0_r in Hv. exact Hv.
  - destruct (isValidHash (hash b)) eqn:Hb.
    + exists b. apply mineBlock_valid, Hb.
    + rewrite (mineBlock_invalid _ _ Hb). apply IH.
      * apply mineStep_hash.
      * rewrite mineStep_nonce; lia.
      * rewrite fingerprint_mineStep, mineStep_nonce by lia.
        replace (nonce b + 1 + Z.of_nat d) with (nonce b + Z.of_nat (S d)) by lia.
        exact Hv.
Qed.

(** No valid nonce up to 2^53: the loop does not finish, whatever the fuel. *)
Lemma mineBlock_never fuel b :
  hash b = calculateHash b ->
  isValidHash (hash b) = false ->
  (forall n, nonce b < n <= JS.MAX_EXACT -> isValidHash (fingerprint b n) = false) ->
  mineBlock fuel b = None.
Proof.
  revert b. induction fuel as [|fuel IH]; intros b Hc Hb Hnone;
    rewrite mineBlock_unfold, Hb; [reflexivity|].
  assert (Hs : isValidHash (hash (mineStep b)) = false).
  { rewrite mineStep_hash, <- fingerprint_nonce, fingerprint_mineStep.
    destruct (Z.lt_ge_cases (nonce b) JS.MAX_EXACT) as [Hlt | Hge].
    - apply Hnone. rewrite mineStep_nonce; lia.
    - rewrite (mineStep_nonce_stuck b Hge), fingerprint_nonce, <- Hc. exact Hb. }
  apply IH; [apply mineStep_hash | exact Hs |].
  intros n Hn. rewrite fingerprint_mineStep. apply Hnone.
  destruct (Z.lt_ge_cases (nonce b) JS.MAX_EXACT) as [Hlt | Hge].
  - rewrite (mineStep_nonce b Hlt) in Hn. lia.
  - rewrite (mineStep_nonce_stuck b Hge) in Hn. lia.
Qed.

Lemma mineBlock_reaches_later b n :
  isValidHash (hash b) = false ->
  nonce b < n <= JS.MAX_EXACT ->
  isValidHash (fingerprint b n) = true ->
  exists b', mineBlock (Z.to_nat (n - nonce b)) b = Some b'.
Proof.
  intros Hb Hn Hv.
  replace (Z.to_nat (n - nonce b)) with (S (Z.to_nat (n - nonce b - 1))) by lia.
  rewrite (mineBlock_invalid _ _ Hb).
  apply mineBlock_reaches.
  - apply mineStep_hash.
  - rewrite mineStep_nonce; lia.
  - rewrite fingerprint_mineStep, mineStep_nonce by lia.
    replace (nonce b + 1 + Z.of_nat (Z.to_nat (n - nonce b - 1))) with n by lia.
    exact Hv.
Qed.

(** Every nonce the loop has passed had an invalid fingerprint. *)
Lemma mineBlock_passed fuel b b' n :
  mineBlock fuel b = Some b' -> nonce b < n < nonce b' ->
  isValidHash (fingerprint b n) = false.
Proof.
  rewrite mineBlock_unfold. destruct (isValidHash (hash b)) eqn:Hb.
  - intros [= <-]. lia.
  - destruct fuel as [|fuel]; [discriminate|]. intros Hm Hn.
    destruct (mineBlock_least _ _ _ Hm (mineStep_hash b)) as (_ & _ & Hmin).
    rewrite <- fingerprint_mineStep. apply Hmin.
    destruct (Z.lt_ge_cases (nonce b) JS.MAX_EXACT) as [Hlt | Hge].
    + rewrite mineStep_nonce; lia.
    + rewrite mineStep_nonce_stuck; lia.
Qed.

(** ** The algorithm of the specification *)

Lemma spec_search_mineBlock fuel b :
  nonce b + Z.of_nat fuel <= JS.MAX_EXACT ->
  spec_search fuel b = mineBlock fuel b.
Proof.
  revert b. induction fuel as [|fuel IH]; intros b Hle;
    rewrite mineBlock_unfold; cbn [spec_search];
    rewrite spec_is_valid_isValidHash; destruct (isValidHash (hash b));
    try reflexivity.
  assert (Hstep : set_hash (calculateHash (set_nonce (nonce b + 1) b))
                    (set_nonce (nonce b + 1) b) = mineStep b).
  { unfold mineStep, JS.increment.
    destruct (Z.ltb_spec (nonce b) JS.MAX_EXACT); [reflexivity | lia]. }
  rewrite Hstep. apply IH. rewrite mineStep_nonce; lia.
Qed.

Lemma spec_search_consistent fuel b b' :
  hash b = calculateHash b -> spec_search fuel b = Some b' ->
  hash b' = calculateHash b'.
Proof.
  revert b. induction fuel as [|fuel IH]; intros b Hc; cbn [spec_search];
    destruct (spec_is_valid (hash b)); try discriminate.
  - intros [= <-]. exact Hc.
  - intros [= <-]. exact Hc.
  - apply IH. apply calculateHash_fields; reflexivity.
Qed.

Lemma spec_mine_consistent fuel b b' :
  spec_mine fuel b = Some b' -> hash b' = calculateHash b'.
Proof.
  unfold spec_mine. apply spec_search_consistent.
  apply calculateHash_fields; reflexivity.
Qed.

Lemma spec_mine_fresh fuel b :
  nonce b = 0 -> hash b = calculateHash b ->
  Z.of_nat fuel <= JS.MAX_EXACT ->
  mineBlock fuel b = spec_mine fuel b.
Proof.
  intros Hn Hc Hfuel. unfold spec_mine.
  assert (Hb : set_hash (calculateHash (set_nonce 0 b)) (set_nonce 0 b) = b).
  { rewrite <- Hn at 1. rewrite (fingerprint_nonce b : calculateHash (set_nonce (nonce b) b) = _).
    rewrite <- Hc. destruct b. cbn in Hn. subst. reflexivity. }
  rewrite Hb. symmetry. apply spec_search_mineBlock. lia.
Qed.

(** ** The constructor *)

Lemma constructor_hash now i d p :
  hash (constructor now i d p) = calculateHash (constructor now i d p).
Proof. apply calculateHash_fields; reflexivity. Qed.

Lemma Lifecycle_hash b : Lifecycle b -> hash b = calculateHash b.
Proof.
  induction 1 as [now i d p | fuel b b' _ IH Hm].
  - apply constructor_hash.
  - exact (mineBlock_consistent _ _ _ IH Hm).
Qed.

(** ** Facts about the concrete blocks *)

Lemma tampered_valid : isValidHash (hash tampered) = true.
Proof. by_running. Qed.

Lemma tampered_inconsistent : hash tampered <> calculateHash tampered.
Proof. rewrite tampered_hash. vm_compute. discriminate. Qed.

Lemma saturated_invalid : isValidHash (hash saturated) = false.
Proof. by_running. Qed.

Lemma saturated_loops fuel : mineBlock fuel saturated = None.
Proof.
  induction fuel as [|fuel IH]; rewrite mineBlock_unfold, saturated_invalid;
    [reflexivity|]. rewrite saturated_step. exact IH.
Qed.

Lemma genesisMined_Lifecycle : Lifecycle genesisMined.
Proof. exact (Lifecycle_mined 2 genesis _ (Lifecycle_new _ _ _ _) genesis_mining). Qed.

Lemma append_assoc (s t u : string) : (s +:+ t) +:+ u = s +:+ (t +:+ u).
Proof.
  induction s as [|c s IH]; [reflexivity|].
  change (String c ((s +:+ t) +:+ u) = String c (s +:+ (t +:+ u))).
  rewrite IH. reflexivity.
Qed.

Lemma mineBlock_after_step fuel b b' :
  isValidHash (hash b) = false -> mineBlock fuel b = Some b' ->
  hash b' = calculateHash b'.
Proof.
  intros Hb. rewrite mineBlock_unfold, Hb.
  destruct fuel as [|fuel]; [discriminate|].
  apply mineBlock_consistent, mineStep_hash.
Qed.

(** The nonce through the loop. *)
Lemma mineStep_nonce_bounds b :
  nonce b <= nonce (mineStep b) <= nonce b + 1 /\
  (nonce b <= JS.MAX_EXACT -> nonce (mineStep b) <= JS.MAX_EXACT).
Proof.
  destruct (Z.lt_ge_cases (nonce b) JS.MAX_EXACT) as [Hlt | Hge].
  - rewrite (mineStep_nonce b Hlt). lia.
  - rewrite (mineStep_nonce_stuck b Hge). lia.
Qed.

Lemma mineBlock_nonce_range fuel : forall b b',
  mineBlock fuel b = Some b' ->
  nonce b <= nonce b' <= nonce b + Z.of_nat fuel /\
  (nonce b <= 2 ^ 53 -> nonce b' <= 2 ^ 53) /\
  (2 ^ 53 <= nonce b -> nonce b' = nonce b).
Proof.
  induction fuel as [|fuel IH]; intros b b'; rewrite mineBlock_unfold;
    destruct (isValidHash (hash b)); try discriminate.
  - intros [= <-]. lia.
  - intros [= <-]. lia.
  - intros Hm. destruct (IH _ _ Hm) as (Hle & Hmax & Hstuck).
    pose proof (mineStep_nonce_bounds b) as (Hs & Hsmax).
    change JS.MAX_EXACT with (2 ^ 53) in Hsmax.
    split; [lia|]. split; [auto|].
    intros Hge. rewrite Hstuck; rewrite mineStep_nonce_stuck; auto; lia.
Qed.

(** ** SHA-256: the implementation computes what the standard defines *)

Lemma wrap32_mod x : CryptoJS.wrap32 x = x mod 2 ^ 32.
Proof.
  unfold CryptoJS.wrap32. change 0xffffffff with (Z.ones 32).
  apply Z.land_ones. lia.
Qed.

Lemma add32_mod x y : CryptoJS.add32 x y = (x + y) mod 2 ^ 32.
Proof. apply wrap32_mod. Qed.

Ltac mod_arith :=
  change (2 ^ 32) with 4294967296; Z.div_mod_to_equations; lia.

Lemma nextW_mod w :
  CryptoJS.nextW w
  = (CryptoJS.smallSigma1 (nth 14 w 0) + nth 9 w 0
     + CryptoJS.smallSigma0 (nth 1 w 0) + nth 0 w 0) mod 2 ^ 32.
Proof.
  unfold CryptoJS.nextW. rewrite !add32_mod.
  generalize (CryptoJS.smallSigma1 (nth 14 w 0)) (nth 9 w 0)
    (CryptoJS.smallSigma0 (nth 1 w 0)) (nth 0 w 0).
  intros x1 x2 x3 x4. mod_arith.
Qed.

Lemma round_step s w k :
  CryptoJS.round (s, w) k = (FIPS180.step s (k, nth 0 w 0), slide w).
Proof.
  destruct s as [a b c d e f g h].
  unfold CryptoJS.round, FIPS180.step, slide. cbn [fst snd].
  rewrite !add32_mod.
  generalize (CryptoJS.bigSigma1 e) (CryptoJS.Ch e f g) (nth 0 w 0)
    (CryptoJS.bigSigma0 a) (CryptoJS.Maj a b c).
  intros x1 x2 x3 x4 x5. f_equal. f_equal; mod_arith.
Qed.

Lemma rounds_steps ks : forall s w,
  fold_left CryptoJS.round ks (s, w)
  = (fold_left FIPS180.step (combine ks (consumed (length ks) w)) s,
     Nat.iter (length ks) slide w).
Proof.
  induction ks as [|k ks IH]; intros s w; [reflexivity|].
  cbn [fold_left length consumed combine]. rewrite round_step, IH.
  f_equal. symmetry. apply Nat.iter_succ_r.
Qed.

Lemma slide_length w : length w = 16%nat -> length (slide w) = 16%nat.
Proof.
  intros H. unfold slide. rewrite length_app. destruct w; [discriminate|].
  cbn [tl length] in *. lia.
Qed.

Lemma iter_slide_length n : forall w,
  length w = 16%nat -> length (Nat.iter n slide w) = 16%nat.
Proof.
  induction n as [|n IH]; intros w H; [exact H|].
  cbn [Nat.iter]. apply slide_length, IH, H.
Qed.

Lemma consumed_firstn n : forall w,
  (n <= length w)%nat -> consumed n w = firstn n w.
Proof.
  induction n as [|n IH]; intros w Hn; [reflexivity|].
  destruct w as [|x w]; [cbn in Hn; lia|].
  cbn [consumed nth firstn]. f_equal.
  unfold slide. cbn [tl length] in *.
  rewrite IH by (rewrite length_app; lia).
  rewrite firstn_app. replace (n - length w)%nat with 0%nat by lia.
  cbn [firstn]. apply app_nil_r.
Qed.

Lemma consumed_add n m : forall w,
  consumed (n + m) w = consumed n w ++ consumed m (Nat.iter n slide w).
Proof.
  induction n as [|n IH]; intros w; [reflexivity|].
  cbn [Nat.add consumed app]. rewrite IH, Nat.iter_succ_r. reflexivity.
Qed.

Lemma extend_consumed n : forall pre w,
  length w = 16%nat ->
  FIPS180.extend n (pre ++ w) = pre ++ consumed n w ++ Nat.iter n slide w.
Proof.
  induction n as [|n IH]; intros pre w Hw; [reflexivity|].
  cbn [FIPS180.extend].
  rewrite length_app, Hw.
  replace (length pre + 16 - 2)%nat with (length pre + 14)%nat by lia.
  replace (length pre + 16 - 7)%nat with (length pre + 9)%nat by lia.
  replace (length pre + 16 - 15)%nat with (length pre + 1)%nat by lia.
  replace (length pre + 16 - 16)%nat with (length pre + 0)%nat by lia.
  rewrite !app_nth2_plus, <- nextW_mod.
  destruct w as [|w0 w']; [discriminate|].
  assert (E : (pre ++ w0 :: w') ++ [CryptoJS.nextW (w0 :: w')]
              = (pre ++ [w0]) ++ slide (w0 :: w')).
  { unfold slide. cbn [tl]. rewrite <- !app_assoc. reflexivity. }
  transitivity (FIPS180.extend n ((pre ++ [w0]) ++ slide (w0 :: w')));
    [f_equal; exact E|].
  rewrite (IH (pre ++ [w0]) (slide (w0 :: w'))) by (apply slide_length, Hw).
  rewrite Nat.iter_succ_r. cbn [consumed nth].
  rewrite <- !app_assoc. reflexivity.
Qed.

Lemma W_consumed w : length w = 16%nat -> FIPS180.W w = consumed 64 w.
Proof.
  intros Hw. unfold FIPS180.W.
  pose proof (extend_consumed 48 [] w Hw) as E. rewrite !app_nil_l in E.
  rewrite E.
  assert (E64 : 64%nat = (48 + 16)%nat) by reflexivity.
  rewrite E64, (consumed_add 48 16 w). f_equal.
  pose proof (iter_slide_length 48 w Hw) as Hv.
  revert Hv. generalize (Nat.iter 48 slide w). intros v Hv.
  rewrite consumed_firstn by lia. symmetry. apply firstn_all2. lia.
Qed.

Lemma compress_block s m :
  length m = 16%nat -> CryptoJS.compress s m = FIPS180.block s m.
Proof.
  intros Hm. unfold CryptoJS.compress, FIPS180.block.
  rewrite rounds_steps. cbn [fst].
  change (length CryptoJS.K) with 64%nat. rewrite <- (W_consumed m Hm).
  destruct (fold_left FIPS180.step (combine CryptoJS.K (FIPS180.W m)) s)
    as [a b c d e f g h].
  cbn [CryptoJS.sa CryptoJS.sb CryptoJS.sc CryptoJS.sd
       CryptoJS.se CryptoJS.sf CryptoJS.sg CryptoJS.sh].
  rewrite !add32_mod.
  f_equal; f_equal; lia.
Qed.

(** The blocks, taken off the front or found by their index. *)
Lemma firstn_nth (l : list Z) : forall k,
  (k <= length l)%nat -> map (fun j => nth j l 0) (seq 0 k) = firstn k l.
Proof.
  induction l as [|x l IH]; intros k Hk.
  - cbn in Hk. replace k with 0%nat by lia. reflexivity.
  - destruct k as [|k]; [reflexivity|].
    cbn [seq map nth firstn]. f_equal.
    rewrite <- seq_shift, map_map. apply IH. cbn in Hk. lia.
Qed.

Lemma M_first words :
  (16 <= length words)%nat -> FIPS180.M words 0 = firstn 16 words.
Proof. intros H. unfold FIPS180.M. cbn [Nat.mul Nat.add]. apply firstn_nth, H. Qed.

Lemma M_next words i : FIPS180.M words (S i) = FIPS180.M (skipn 16 words) i.
Proof.
  unfold FIPS180.M. apply map_ext. intros j. rewrite nth_skipn.
  f_equal. lia.
Qed.

Lemma fold_blocks_shift (l : list Z) js : forall H0,
  fold_left (fun H i => FIPS180.block H (FIPS180.M l i)) (map S js) H0
  = fold_left (fun H i => FIPS180.block H (FIPS180.M (skipn 16 l) i)) js H0.
Proof.
  induction js as [|j js IH]; intros H0; [reflexivity|].
  cbn [map fold_left]. rewrite M_next. apply IH.
Qed.

Lemma hashBlocks_fold m : forall n s ws,
  length ws = (16 * m)%nat -> (m <= n)%nat ->
  CryptoJS.hashBlocks n s ws
  = fold_left (fun H i => FIPS180.block H (FIPS180.M ws i)) (seq 0 m) s.
Proof.
  induction m as [|m IH]; intros n s ws Hl Hn.
  - destruct ws; [|discriminate]. destruct n; reflexivity.
  - destruct n as [|n]; [lia|]. destruct ws as [|x ws]; [discriminate|].
    cbn [CryptoJS.hashBlocks]. remember (x :: ws) as l eqn:El. clear El.
    assert (H16 : (16 <= length l)%nat) by lia.
    rewrite (IH n _ (skipn 16 l)) by (rewrite ?length_skipn; lia).
    rewrite compress_block by (rewrite length_firstn; lia).
    cbn [seq fold_left]. rewrite (M_first l H16).
    rewrite <- seq_shift, fold_blocks_shift. reflexivity.
Qed.

Lemma toWords_length k : forall n bytes,
  length bytes = (4 * k)%nat -> (k <= n)%nat ->
  length (CryptoJS.toWords n bytes) = k.
Proof.
  induction k as [|k IH]; intros n bytes Hl Hn.
  - destruct bytes; [|discriminate]. destruct n; reflexivity.
  - destruct n as [|n]; [lia|].
    destruct bytes as [|b0 [|b1 [|b2 [|b3 rest]]]]; try (cbn in Hl; lia).
    cbn [CryptoJS.toWords length]. f_equal. apply IH; cbn in Hl; lia.
Qed.

Lemma padding_zeros len :
  ((448 - (8 * len + 1)) mod 512 + 1) / 8 - 1 = (55 - len) mod 64.
Proof. Z.div_mod_to_equations. lia. Qed.

Lemma pad_padding msg :
  CryptoJS.pad msg = msg ++ FIPS180.padding (Z.of_nat (length msg)).
Proof.
  unfold CryptoJS.pad, FIPS180.padding. cbv zeta.
  rewrite padding_zeros. reflexivity.
Qed.

Lemma pad_length msg : exists q, length (CryptoJS.pad msg) = (64 * q)%nat.
Proof.
  unfold CryptoJS.pad. cbv zeta.
  exists (Z.to_nat ((Z.of_nat (length msg) + 9 + (55 - Z.of_nat (length msg)) mod 64) / 64)).
  rewrite !length_app, repeat_length. cbn [length].
  unfold CryptoJS.bigEndian. rewrite length_map, length_rev, length_seq.
  set (len := Z.of_nat (length msg)).
  assert (Hlen : length msg = Z.to_nat len) by lia.
  assert (0 <= len) by lia. rewrite Hlen. clearbody len.
  Z.div_mod_to_equations. lia.
Qed.

Lemma sha256_digest msg : CryptoJS.sha256 msg = FIPS180.digest msg.
Proof.
  unfold CryptoJS.sha256, FIPS180.digest. cbv zeta.
  rewrite <- pad_padding.
  destruct (pad_length msg) as [q Hq].
  assert (Hw : length (CryptoJS.toWords (length (CryptoJS.pad msg)) (CryptoJS.pad msg))
               = (16 * q)%nat) by (apply toWords_length; lia).
  rewrite Hw. replace (16 * q / 16)%nat with q
    by (rewrite Nat.mul_comm, Nat.div_mul; lia).
  apply hashBlocks_fold; [exact Hw | lia].
Qed.

(** ** Strings of 16-bit code units: the encoding and the quoting *)

Lemma code_bounded c : 0 <= Z.of_N (N_of_ascii c) < 256.
Proof. pose proof (N_ascii_bounded c). lia. Qed.

Lemma isLeading_small u : 0 <= u < 256 -> UTF16.isLeading u = false.
Proof.
  intros H. unfold UTF16.isLeading.
  destruct (Z.leb_spec 0xD800 u); [lia | reflexivity].
Qed.

Lemma isTrailing_small u : 0 <= u < 256 -> UTF16.isTrailing u = false.
Proof.
  intros H. unfold UTF16.isTrailing.
  destruct (Z.leb_spec 0xDC00 u); [lia | reflexivity].
Qed.

Lemma utf8CodePoint_small c :
  UTF16.utf8CodePoint (Z.of_N (N_of_ascii c)) = CryptoJS.utf8Unit c.
Proof.
  pose proof (code_bounded c) as H.
  unfold UTF16.utf8CodePoint, CryptoJS.utf8Unit, UTF16.continuation. cbv zeta.
  destruct (Z.ltb_spec (Z.of_N (N_of_ascii c)) 0x80); [reflexivity|].
  destruct (Z.ltb_spec (Z.of_N (N_of_ascii c)) 0x800); [reflexivity | lia].
Qed.

Lemma ofString_cons c s :
  UTF16.ofString (String c s) = Z.of_N (N_of_ascii c) :: UTF16.ofString s.
Proof. reflexivity. Qed.

Lemma ofString_app s t :
  UTF16.ofString (s +:+ t) = UTF16.ofString s ++ UTF16.ofString t.
Proof.
  induction s as [|c s IH]; [reflexivity|].
  change (String c s +:+ t) with (String c (s +:+ t)).
  rewrite !ofString_cons, IH. reflexivity.
Qed.

(** Induction on a list that is read one or two elements at a time. *)
Lemma list_pair_ind {A} (P : list A -> Prop) :
  P [] ->
  (forall u rest,
     P rest -> (forall v rest', rest = v :: rest' -> P rest') -> P (u :: rest)) ->
  forall l, P l.
Proof.
  intros H0 Hs.
  assert (H : forall l, P l /\ (forall v l', l = v :: l' -> P l')).
  { induction l as [|u l [IH1 IH2]].
    - split; [exact H0 | discriminate].
    - split; [apply Hs; assumption |].
      intros v l' E. injection E as _ <-. exact IH1. }
  intros l. apply H.
Qed.

Lemma utf8Parse_plain u rest :
  UTF16.isLeading u = false -> UTF16.isTrailing u = false ->
  UTF16.utf8Parse (u :: rest)
  = option_map (app (UTF16.utf8CodePoint u)) (UTF16.utf8Parse rest).
Proof. intros H1 H2. cbn [UTF16.utf8Parse]. rewrite H1, H2. reflexivity. Qed.

Lemma utf8Parse_pair u v rest :
  UTF16.isLeading u = true -> UTF16.isTrailing v = true ->
  UTF16.utf8Parse (u :: v :: rest)
  = option_map
      (app (UTF16.utf8CodePoint (0x10000 + (u - 0xD800) * 0x400 + (v - 0xDC00))))
      (UTF16.utf8Parse rest).
Proof. intros H1 H2. cbn [UTF16.utf8Parse]. rewrite H1, H2. reflexivity. Qed.

Lemma option_map_app_assoc (a b : list Z) o :
  option_map (app a) (option_map (app b) o) = option_map (app (a ++ b)) o.
Proof. destruct o; cbn; [rewrite app_assoc|]; reflexivity. Qed.

Lemma option_map_app_nil (o : option (list Z)) : option_map (app []) o = o.
Proof. destruct o; reflexivity. Qed.

(** The encoding of a well-formed string followed by another string. *)
Lemma utf8Parse_app xs : forall a ys,
  UTF16.utf8Parse xs = Some a ->
  UTF16.utf8Parse (xs ++ ys) = option_map (app a) (UTF16.utf8Parse ys).
Proof.
  induction xs as [|u rest IH1 IH2] using list_pair_ind; intros a ys H.
  - injection H as <-. cbn [app]. symmetry. apply option_map_app_nil.
  - destruct (UTF16.isLeading u) eqn:El.
    + destruct rest as [|v rest'].
      { cbn [UTF16.utf8Parse] in H. rewrite El in H. discriminate. }
      destruct (UTF16.isTrailing v) eqn:Et.
      * rewrite utf8Parse_pair in H by assumption.
        destruct (UTF16.utf8Parse rest') as [r|] eqn:Er; [|discriminate].
        injection H as <-. cbn [app].
        rewrite utf8Parse_pair by assumption.
        rewrite (IH2 v rest' eq_refl r ys) by first [exact Er | reflexivity].
        apply option_map_app_assoc.
      * cbn [UTF16.utf8Parse] in H. rewrite El, Et in H. discriminate.
    + destruct (UTF16.isTrailing u) eqn:Et.
      { cbn [UTF16.utf8Parse] in H. rewrite El, Et in H. discriminate. }
      rewrite utf8Parse_plain in H by assumption.
      destruct (UTF16.utf8Parse rest) as [r|] eqn:Er; [|discriminate].
      injection H as <-. cbn [app].
      rewrite utf8Parse_plain by assumption.
      rewrite (IH1 r ys) by first [exact Er | reflexivity].
      apply option_map_app_assoc.
Qed.

(** A string that is not well formed stays so when the string that
    follows does not start with a trailing surrogate. *)
Lemma utf8Parse_app_None xs : forall ys,
  UTF16.utf8Parse xs = None ->
  match ys with v :: _ => UTF16.isTrailing v = false | [] => True end ->
  UTF16.utf8Parse (xs ++ ys) = None.
Proof.
  induction xs as [|u rest IH1 IH2] using list_pair_ind; intros ys H Hys.
  - discriminate.
  - destruct (UTF16.isLeading u) eqn:El.
    + destruct rest as [|v rest'].
      { cbn [app]. destruct ys as [|v ys'].
        - cbn [UTF16.utf8Parse]. rewrite El. reflexivity.
        - cbn [UTF16.utf8Parse]. rewrite El, Hys. reflexivity. }
      destruct (UTF16.isTrailing v) eqn:Et.
      * rewrite utf8Parse_pair in H by assumption.
        destruct (UTF16.utf8Parse rest') as [r|] eqn:Er; [discriminate|].
        cbn [app]. rewrite utf8Parse_pair by assumption.
        rewrite (IH2 v rest' eq_refl ys) by first [exact Er | exact Hys | reflexivity]. reflexivity.
      * cbn [app UTF16.utf8Parse]. rewrite El, Et. reflexivity.
    + destruct (UTF16.isTrailing u) eqn:Et.
      { cbn [app UTF16.utf8Parse]. rewrite El, Et. reflexivity. }
      rewrite utf8Parse_plain in H by assumption.
      destruct (UTF16.utf8Parse rest) as [r|] eqn:Er; [discriminate|].
      cbn [app]. rewrite utf8Parse_plain by assumption.
      rewrite (IH1 ys) by first [exact Er | exact Hys | reflexivity]. reflexivity.
Qed.

(** A string of code units below U+0100 is well formed, and its encoding
    is the one of [CryptoJS.utf8Parse]. *)
Lemma utf8Parse_ofString s :
  UTF16.utf8Parse (UTF16.ofString s) = Some (CryptoJS.utf8Parse s).
Proof.
  induction s as [|c s IH]; [reflexivity|].
  rewrite ofString_cons.
  rewrite utf8Parse_plain
    by (first [apply isLeading_small | apply isTrailing_small]; apply code_bounded).
  rewrite IH, utf8CodePoint_small. reflexivity.
Qed.

Lemma utf8Parse_ofString_app s us :
  UTF16.utf8Parse (UTF16.ofString s ++ us)
  = option_map (app (CryptoJS.utf8Parse s)) (UTF16.utf8Parse us).
Proof. apply utf8Parse_app, utf8Parse_ofString. Qed.

Lemma utf8Parse_escapeUnit u :
  exists b, UTF16.utf8Parse (UTF16.escapeUnit u) = Some b.
Proof. eexists. unfold UTF16.escapeUnit. apply utf8Parse_ofString. Qed.

Lemma utf8Parse_quotePlain u :
  UTF16.isLeading u = false -> UTF16.isTrailing u = false ->
  exists b, UTF16.utf8Parse (UTF16.quotePlain u) = Some b.
Proof.
  intros El Et. unfold UTF16.quotePlain.
  repeat match goal with
         | |- context [if ?c then _ else _] =>
             destruct c; [eexists; apply utf8Parse_ofString|]
         end.
  eexists. rewrite utf8Parse_plain by assumption. reflexivity.
Qed.

(** What [JSON.stringify] writes is well formed, whatever the string. *)
Lemma utf8Parse_quoteUnits us :
  exists b, UTF16.utf8Parse (UTF16.quoteUnits us) = Some b.
Proof.
  induction us as [|u rest IH1 IH2] using list_pair_ind.
  - exists []. reflexivity.
  - cbn [UTF16.quoteUnits]. destruct (UTF16.isLeading u) eqn:El.
    + destruct rest as [|v rest']; [apply utf8Parse_escapeUnit|].
      destruct (UTF16.isTrailing v) eqn:Et.
      * destruct (IH2 v rest' eq_refl) as [r Hr].
        rewrite utf8Parse_pair, Hr by assumption. eexists. reflexivity.
      * destruct IH1 as [r Hr]. destruct (utf8Parse_escapeUnit u) as [e He].
        rewrite (utf8Parse_app _ _ _ He), Hr. eexists. reflexivity.
    + destruct IH1 as [r Hr]. destruct (UTF16.isTrailing u) eqn:Et.
      * destruct (utf8Parse_escapeUnit u) as [e He].
        rewrite (utf8Parse_app _ _ _ He), Hr. eexists. reflexivity.
      * destruct (utf8Parse_quotePlain u El Et) as [e He].
        rewrite (utf8Parse_app _ _ _ He), Hr. eexists. reflexivity.
Qed.

Lemma utf8Parse_JSON_stringify us :
  exists b, UTF16.utf8Parse (UTF16.JSON_stringify us) = Some b.
Proof.
  unfold UTF16.JSON_stringify. destruct (utf8Parse_quoteUnits us) as [r Hr].
  rewrite utf8Parse_plain by reflexivity.
  rewrite (utf8Parse_app _ _ _ Hr). eexists. reflexivity.
Qed.

Lemma ofString_head s z zs :
  UTF16.isTrailing z = false ->
  match UTF16.ofString s ++ z :: zs with
  | v :: _ => UTF16.isTrailing v = false
  | [] => True
  end.
Proof.
  intros Hz. destruct s as [|c s]; [exact Hz|].
  rewrite ofString_cons. cbn [app]. apply isTrailing_small, code_bounded.
Qed.

(** The message of [calculateHash()], as one sum from left to right. *)
Lemma wideMessage_flat wb :
  wideMessage wb
  = UTF16.ofString (JS.toString (wideIndex wb)) ++ widePreviousHash wb
    ++ UTF16.ofString (JS.toString (wideTimestamp wb))
    ++ UTF16.JSON_stringify (wideData wb)
    ++ UTF16.ofString (JS.toString (wideNonce wb)).
Proof. unfold wideMessage. rewrite <- !app_assoc. reflexivity. Qed.

Lemma wideMessage_parse wb p :
  UTF16.utf8Parse (widePreviousHash wb) = Some p ->
  exists d,
    UTF16.utf8Parse (UTF16.JSON_stringify (wideData wb)) = Some d /\
    UTF16.utf8Parse (wideMessage wb)
    = Some (CryptoJS.utf8Parse (JS.toString (wideIndex wb)) ++ p
            ++ CryptoJS.utf8Parse (JS.toString (wideTimestamp wb)) ++ d
            ++ CryptoJS.utf8Parse (JS.toString (wideNonce wb))).
Proof.
  intros Hp. destruct (utf8Parse_JSON_stringify (wideData wb)) as [d Hd].
  exists d. split; [exact Hd|].
  rewrite wideMessage_flat.
  rewrite utf8Parse_ofString_app, (utf8Parse_app _ _ _ Hp).
  rewrite utf8Parse_ofString_app, (utf8Parse_app _ _ _ Hd).
  rewrite utf8Parse_ofString. reflexivity.
Qed.

Lemma wideMessage_parse_None wb :
  UTF16.utf8Parse (widePreviousHash wb) = None ->
  UTF16.utf8Parse (wideMessage wb) = None.
Proof.
  intros Hp. rewrite wideMessage_flat, utf8Parse_ofString_app.
  rewrite (utf8Parse_app_None _ _ Hp); [reflexivity|].
  unfold UTF16.JSON_stringify. cbn [app]. apply ofString_head. reflexivity.
Qed.

(** On the strings of code units below U+0100 the general operations are
    the ones of the class. *)
Lemma quotePlain_small c :
  UTF16.quotePlain (Z.of_N (N_of_ascii c)) = UTF16.ofString (JS.quoteUnit c).
Proof.
  unfold UTF16.quotePlain, JS.quoteUnit, UTF16.escapeUnit. cbv zeta.
  repeat match goal with
         | |- context [if ?c then _ else _] => destruct c; [reflexivity|]
         end.
  reflexivity.
Qed.

Lemma quoteUnits_ofString s :
  UTF16.quoteUnits (UTF16.ofString s) = UTF16.ofString (JS.quoteUnits s).
Proof.
  induction s as [|c s IH]; [reflexivity|].
  rewrite ofString_cons. cbn [UTF16.quoteUnits JS.quoteUnits].
  rewrite isLeading_small, isTrailing_small by apply code_bounded.
  rewrite IH, quotePlain_small, ofString_app. reflexivity.
Qed.

Lemma JSON_stringify_ofString s :
  UTF16.JSON_stringify (UTF16.ofString s) = UTF16.ofString (JS.JSON_stringify s).
Proof.
  unfold UTF16.JSON_stringify, JS.JSON_stringify.
  rewrite ofString_cons, ofString_app, quoteUnits_ofString. reflexivity.
Qed.

Lemma wideMessage_widen b : wideMessage (widen b) = UTF16.ofString (hashInput b).
Proof.
  unfold wideMessage, widen, hashInput.
  cbn [wideIndex wideTimestamp wideData widePreviousHash wideNonce].
  rewrite !ofString_app, JSON_stringify_ofString. reflexivity.
Qed.

Lemma calculateHashWide_widen b :
  calculateHashWide (widen b) = Some (calculateHash b).
Proof.
  unfold calculateHashWide. rewrite wideMessage_widen, utf8Parse_ofString.
  reflexivity.
Qed.

(** On the integers from -2^53 to 2^53, [JS.increment] is the increment
    of the numbers. *)
Lemma increment_exact n : exactInteger n -> JS.increment n = incrementDouble n.
Proof.
  unfold exactInteger, JS.increment, JS.MAX_EXACT, incrementDouble. intros H.
  destruct (Z.ltb_spec n (2 ^ 53)).
  - destruct (Z.leb_spec (- 2 ^ 53) n); [reflexivity | lia].
  - assert (n = 2 ^ 53) as -> by lia. reflexivity.
Qed.

Lemma mineStep_exact b :
  exactInteger (nonce b) ->
  nonce (mineStep b) = incrementDouble (nonce b) /\
  exactInteger (nonce (mineStep b)).
Proof.
  intros H. rewrite <- (increment_exact _ H). split; [reflexivity|].
  change (nonce (mineStep b)) with (JS.increment (nonce b)).
  unfold exactInteger, JS.increment, JS.MAX_EXACT in *.
  destruct (Z.ltb_spec (nonce b) (2 ^ 53)); lia.
Qed.

(** Outside the range the numbers have gaps: the increment steps by two,
    or leaves the number as it is. *)
Example incrementDouble_above :
  incrementDouble (2 ^ 53 + 2) = 2 ^ 53 + 4 /\
  incrementDouble (- (2 ^ 53 + 2)) = - 2 ^ 53 /\
  incrementDouble (- (2 ^ 53 + 4)) = - (2 ^ 53 + 4).
Proof. repeat split. Qed.

(** Two blocks with strings beyond U+00FF: the hash is the one Node
    prints for the first, and the second has none. *)
Example calculateHashWide_widePair :
  wideMessage widePair
  = UTF16.ofString "0" ++ [0x20AC] ++ UTF16.ofString "1700000036733"
    ++ [34; 0x61; 0xD83D; 0xDE00; 34] ++ UTF16.ofString "0" /\
  UTF16.utf8Parse [0x20AC] = Some [0xE2; 0x82; 0xAC] /\
  UTF16.utf8Parse [0xD83D; 0xDE00] = Some [0xF0; 0x9F; 0x98; 0x80] /\
  calculateHashWide widePair
  = Some "ff532a341fda1a3e34f415fc8f18b18a50bc497c2bcf283d22ce6ffd8b2245c8".
Proof. repeat split; by_running. Qed.

Example JSON_stringify_lone_surrogate :
  UTF16.JSON_stringify [0x61; 0xDE00; 0x0A; 0xD83D]
  = UTF16.ofString (String JS.dquote "a\ude00\n\ud83d" +:+ String JS.dquote "").
Proof. by_running. Qed.

(** * The claims *)

(** C1. For every block, once [mineBlock] has returned, the hash stored in
    the block satisfies the difficulty predicate: its first [DIFFICULTY]
    (= 4) characters are all ['0']. *)
Theorem mineBlock_meets_difficulty fuel b b' :
  mineBlock fuel b = Some b' ->
  DIFFICULTY = 4%nat /\
  isValidHash (hash b') = true /\
  exists rest, hash b' = "0000" +:+ rest.
Proof.
  intros Hm. split; [reflexivity|].
  pose proof (mineBlock_result_valid _ _ _ Hm) as Hv.
  split; [exact Hv | apply isValidHash_prefix, Hv].
Qed.

Lemma mineBlock_meets_difficulty_witness :
  mineBlock 2 genesis = Some genesisMined /\
  (DIFFICULTY = 4%nat /\
   isValidHash (hash genesisMined) = true /\
   exists rest, hash genesisMined = "0000" +:+ rest).
Proof.
  split; [vm_compute; reflexivity|].
  apply (mineBlock_meets_difficulty 2 genesis). vm_compute. reflexivity.
Defined.

(** C2, as amended.  The constructor leaves the stored hash equal to
    [calculateHash()] of the fields, and [mineBlock] keeps that equality:
    it holds after [mineBlock] returns whenever it held before the call or
    the loop body ran at least once, hence on every block that was not
    written to directly.  Writing to [data] breaks it, and a later call of
    [mineBlock] on a hash that is still valid does not restore it. *)
Theorem hash_invariant :
  (forall now i d p,
     hash (constructor now i d p) = calculateHash (constructor now i d p)) /\
  (forall fuel b b',
     mineBlock fuel b = Some b' ->
     hash b = calculateHash b \/ isValidHash (hash b) = false ->
     hash b' = calculateHash b') /\
  (forall b, Lifecycle b -> hash b = calculateHash b) /\
  (exists b d, Lifecycle b /\
     hash (set_data d b) <> calculateHash (set_data d b)).
Proof.
  split; [exact constructor_hash|]. split; [|split].
  - intros fuel b b' Hm [Hc | Hb].
    + exact (mineBlock_consistent _ _ _ Hc Hm).
    + exact (mineBlock_after_step _ _ _ Hb Hm).
  - exact Lifecycle_hash.
  - exists genesisMined, "Tampered Data!".
    split; [exact genesisMined_Lifecycle | exact tampered_inconsistent].
Qed.

Lemma hash_invariant_witness :
  hash genesisMined = calculateHash genesisMined.
Proof.
  destruct hash_invariant as (_ & Hmine & _).
  apply (Hmine 2%nat genesis genesisMined).
  - vm_compute. reflexivity.
  - left. vm_compute. reflexivity.
Defined.

(** C2, as stated, fails on the tampered block: [mineBlock] returns at
    once, and the stored hash is not the hash of the fields. *)
Lemma mineBlock_keeps_stale_hash :
  (forall fuel, mineBlock fuel tampered = Some tampered) /\
  hash tampered <> calculateHash tampered.
Proof.
  split.
  - intros fuel. apply mineBlock_valid, tampered_valid.
  - exact tampered_inconsistent.
Qed.




(** C5, as amended.  The constructor makes a block from [index], [data]
    and [previousHash], stamps it with the current time, sets the nonce to
    0 and stores the hash of these fields; when the third argument is
    omitted, [previousHash] is the empty string. *)
Theorem constructor_fields now i d p :
  index (constructor now i d p) = i /\
  data (constructor now i d p) = d /\
  timestamp (constructor now i d p) = now /\
  nonce (constructor now i d p) = 0 /\
  previousHash (constructor now i d p) = default "" p /\
  previousHash (constructor now i d None) = "" /\
  hash (constructor now i d p) = calculateHash (constructor now i d p).
Proof. repeat split. Qed.

(** C5, as stated, fails: without a third argument the previous hash is
    not ["0"]. *)
Lemma constructor_default_not_zero :
  previousHash (constructor 1700000036733 0 "Genesis Block" None) <> "0".
Proof. cbn. discriminate. Qed.

(** C4, as amended.  [mineBlock] does not reset the nonce and does not
    recompute the hash on entry: it starts from the nonce and the hash
    stored in the block.  On a block whose nonce is an integer from -2^53
    to 2^53: while the stored hash does not satisfy the difficulty
    predicate, it increments the nonce by 1 (at 2^53 the increment leaves
    the number as it is) and stores the hash of the fields, stopping at
    the first hash that satisfies the predicate.  On a block with nonce 0
    and the hash of its fields, as the constructor leaves it, this is the
    algorithm of the specification. *)
Theorem mineBlock_algorithm fuel b :
  - 2 ^ 53 <= nonce b <= 2 ^ 53 ->
  mineBlock fuel b =
    (if isValidHash (hash b) then Some b
     else match fuel with
          | O => None
          | S fuel' => mineBlock fuel' (mineStep b)
          end) /\
  - 2 ^ 53 <= nonce (mineStep b) <= 2 ^ 53 /\
  (nonce b < 2 ^ 53 ->
   nonce (mineStep b) = nonce b + 1 /\
   hash (mineStep b) = fingerprint b (nonce b + 1)) /\
  (nonce b = 2 ^ 53 ->
   nonce (mineStep b) = 2 ^ 53 /\
   hash (mineStep b) = fingerprint b (2 ^ 53)) /\
  (nonce b = 0 -> hash b = calculateHash b -> Z.of_nat fuel <= 2 ^ 53 ->
   mineBlock fuel b = spec_mine fuel b).
Proof.
  intros Hr. split; [apply mineBlock_unfold|].
  assert (Hfp : hash (mineStep b) = fingerprint b (nonce (mineStep b)))
    by (apply calculateHash_fields; reflexivity).
  split; [|split; [|split]].
  - pose proof (mineStep_nonce_bounds b) as (Hs & Hmax).
    change JS.MAX_EXACT with (2 ^ 53) in Hmax. lia.
  - intros Hlt. rewrite Hfp, (mineStep_nonce b Hlt). split; reflexivity.
  - intros Heq. rewrite Hfp, (mineStep_nonce_stuck b), Heq.
    + split; reflexivity.
    + change JS.MAX_EXACT with (2 ^ 53). lia.
  - apply spec_mine_fresh.
Qed.

Lemma mineBlock_algorithm_witness :
  mineBlock 2 genesis = spec_mine 2 genesis.
Proof.
  assert (Hr : - 2 ^ 53 <= nonce genesis <= 2 ^ 53)
    by (vm_compute; split; discriminate).
  destruct (mineBlock_algorithm 2 genesis Hr) as (_ & _ & _ & _ & Hspec).
  apply Hspec.
  - vm_compute. reflexivity.
  - vm_compute. reflexivity.
  - vm_compute. discriminate.
Defined.

(** C4, as stated, fails on the tampered block: [mineBlock] returns it
    as it is, with nonce 2 and the old hash, whereas the search from nonce
    0 can only return a block that carries the hash of its fields. *)
Lemma mineBlock_does_not_reset :
  nonce tampered = 2 /\
  forall fuel, mineBlock fuel tampered = Some tampered /\
               spec_mine fuel tampered <> Some tampered.
Proof.
  split; [reflexivity|]. intros fuel. split.
  - apply mineBlock_valid, tampered_valid.
  - intros H. exact (tampered_inconsistent (spec_mine_consistent _ _ _ H)).
Qed.

(** C6. [mineBlock] writes to the nonce and the hash of its block only:
    [index], [timestamp], [data] and [previousHash] keep their values, and
    every other block is left as it was. *)
Theorem runMineBlock_frame fuel this w w' b :
  heap w !! this = Some b ->
  runMineBlock fuel this w = Some w' ->
  (exists b', heap w' !! this = Some b' /\ mineBlock fuel b = Some b' /\
     index b' = index b /\ timestamp b' = timestamp b /\
     data b' = data b /\ previousHash b' = previousHash b) /\
  (forall other, other <> this -> heap w' !! other = heap w !! other).
Proof.
  intros Hb. unfold runMineBlock. rewrite Hb. cbn [mbind option_bind].
  destruct (mineBlock fuel b) as [b'|] eqn:Hm; [|discriminate].
  intros [= <-]. cbn [heap]. split.
  - exists b'. split; [apply lookup_insert_eq|]. split; [reflexivity|].
    exact (mineBlock_fields _ _ _ Hm).
  - intros other Hne. apply lookup_insert_ne. congruence.
Qed.

Lemma runMineBlock_frame_witness :
  (exists b', heap twoBlocksMined !! 1%positive = Some b' /\
     mineBlock 2 genesis = Some b' /\
     index b' = index genesis /\ timestamp b' = timestamp genesis /\
     data b' = data genesis /\ previousHash b' = previousHash genesis) /\
  (forall other, other <> 1%positive ->
     heap twoBlocksMined !! other = heap twoBlocks !! other).
Proof.
  apply (runMineBlock_frame 2 1%positive twoBlocks twoBlocksMined genesis).
  - vm_compute. reflexivity.
  - vm_compute. reflexivity.
Defined.

(** C7. [isValidHash] is a function of its argument alone, and it returns
    [true] exactly on the strings that start with [DIFFICULTY] (= 4)
    characters ['0']. *)
Theorem isValidHash_correct h :
  DIFFICULTY = 4%nat /\
  (isValidHash h = true <-> exists rest, h = spec_zeros DIFFICULTY +:+ rest) /\
  (isValidHash h = true <-> exists rest, h = "0000" +:+ rest).
Proof. repeat split; apply isValidHash_prefix. Qed.

Lemma isValidHash_correct_witness :
  isValidHash "0000a1" = true /\ ~ (exists rest, "0001a1" = "0000" +:+ rest).
Proof.
  split.
  - apply (isValidHash_correct "0000a1"). exists "a1". reflexivity.
  - intros H. apply (isValidHash_correct "0001a1") in H. revert H.
    vm_compute. discriminate.
Defined.

(** C8, as amended.  For every block whose nonce is an integer from -2^53
    to 2^53, the loop finishes when the stored hash is already valid, or
    when some nonce greater than the nonce of the block and at most 2^53
    has a valid fingerprint (on a block that stores the hash of its
    fields, its own nonce counts too), and the nonce it commits is at most
    2^53.  Nothing bounds the number of iterations: on such a block that
    stores the invalid hash of its fields the loop never finishes when no
    nonce greater than its own and at most 2^53 has a valid fingerprint. *)
Theorem mineBlock_termination b :
  - 2 ^ 53 <= nonce b <= 2 ^ 53 ->
  (isValidHash (hash b) = true \/
   (exists n, nonce b < n <= 2 ^ 53 /\ isValidHash (fingerprint b n) = true) ->
   exists fuel b', mineBlock fuel b = Some b' /\ nonce b' <= 2 ^ 53) /\
  (hash b = calculateHash b ->
   (exists n, nonce b <= n <= 2 ^ 53 /\ isValidHash (fingerprint b n) = true) ->
   exists fuel b', mineBlock fuel b = Some b' /\ nonce b' <= 2 ^ 53) /\
  (hash b = calculateHash b ->
   isValidHash (hash b) = false ->
   (forall n, nonce b < n <= 2 ^ 53 -> isValidHash (fingerprint b n) = false) ->
   forall fuel, mineBlock fuel b = None).
Proof.
  intros Hr.
  assert (Hbound : forall fuel b', mineBlock fuel b = Some b' -> nonce b' <= 2 ^ 53).
  { intros fuel b' Hm.
    destruct (mineBlock_nonce_range _ _ _ Hm) as (_ & Hmax & _). apply Hmax, Hr. }
  split; [|split].
  - intros [Hv | (n & Hn & Hv)].
    + exists 0%nat, b. split; [apply mineBlock_valid, Hv | apply Hr].
    + destruct (isValidHash (hash b)) eqn:Hb.
      * exists 0%nat, b. split; [apply mineBlock_valid, Hb | apply Hr].
      * destruct (mineBlock_reaches_later b n Hb Hn Hv) as [b' Hm]. eauto.
  - intros Hc (n & Hn & Hv).
    destruct (mineBlock_reaches (Z.to_nat (n - nonce b)) b Hc) as [b' Hm].
    + change JS.MAX_EXACT with (2 ^ 53). lia.
    + replace (nonce b + Z.of_nat (Z.to_nat (n - nonce b))) with n by lia.
      exact Hv.
    + eauto.
  - intros Hc Hb Hnone fuel. apply mineBlock_never; assumption.
Qed.

Lemma mineBlock_termination_witness :
  (exists fuel b', mineBlock fuel genesis = Some b' /\ nonce b' <= 2 ^ 53) /\
  (forall fuel, mineBlock fuel nearlySaturated = None).
Proof.
  split.
  - assert (Hr : - 2 ^ 53 <= nonce genesis <= 2 ^ 53)
      by (vm_compute; split; discriminate).
    destruct (mineBlock_termination genesis Hr) as (_ & Hconsistent & _).
    apply Hconsistent.
    + vm_compute. reflexivity.
    + exists 2. split; [split; vm_compute; discriminate | vm_compute; reflexivity].
  - assert (Hr : - 2 ^ 53 <= nonce nearlySaturated <= 2 ^ 53)
      by (vm_compute; split; discriminate).
    destruct (mineBlock_termination nearlySaturated Hr) as (_ & _ & Hnever).
    apply Hnever.
    + vm_compute. reflexivity.
    + vm_compute. reflexivity.
    + intros n Hn. change (nonce nearlySaturated) with 9007199254740991 in Hn.
      assert (n = 9007199254740992) as -> by lia.
      vm_compute. reflexivity.
Defined.

(** C8, as stated, fails on the block whose nonce is 2^53: the nonce
    2^53 + 2 has a valid fingerprint, and the loop never finishes, because
    the increment leaves the nonce at 2^53. *)
Lemma mineBlock_stuck_at_max :
  (exists n, nonce saturated <= n /\ isValidHash (fingerprint saturated n) = true) /\
  forall fuel, mineBlock fuel saturated = None.
Proof.
  split.
  - exists 9007199254740994. split; [vm_compute; discriminate|].
    rewrite saturated_later_nonce. vm_compute. reflexivity.
  - exact saturated_loops.
Qed.

(** C9. On a block whose stored hash satisfies the difficulty predicate,
    [mineBlock] changes nothing; in particular a second call, after a call
    that returned, changes nothing. *)
Theorem mineBlock_idempotent :
  (forall fuel b, isValidHash (hash b) = true -> mineBlock fuel b = Some b) /\
  (forall fuel fuel' b b',
     mineBlock fuel b = Some b' -> mineBlock fuel' b' = Some b').
Proof.
  split.
  - exact mineBlock_valid.
  - intros fuel fuel' b b' Hm.
    apply mineBlock_valid, (mineBlock_result_valid _ _ _ Hm).
Qed.

Lemma mineBlock_idempotent_witness :
  mineBlock 0 tampered = Some tampered /\
  mineBlock 0 genesisMined = Some genesisMined.
Proof.
  destruct mineBlock_idempotent as [Hvalid Hagain]. split.
  - apply Hvalid. vm_compute. reflexivity.
  - apply (Hagain 2%nat 0%nat genesis). vm_compute. reflexivity.
Defined.




(** * Further properties *)

(** ** Running the driver *)

Lemma run_last_consoleLog line (h : gmap positive Block) (c : list string) :
  consoleLog line (mkWorld h c) = Some (tt, mkWorld h (c ++ [line])).
Proof. reflexivity. Qed.

Section RunSteps.
Context {B : Type}.
Implicit Types (h : gmap positive Block) (c : list string).

Lemma run_consoleLog line (k : unit -> Run B) h c :
  bind (consoleLog line) k (mkWorld h c) = k tt (mkWorld h (c ++ [line])).
Proof. reflexivity. Qed.

Lemma run_newBlock now i d p (k : positive -> Run B) h c :
  bind (newBlock now i d p) k (mkWorld h c)
  = k (fresh (dom h)) (mkWorld (<[fresh (dom h) := constructor now i d p]> h) c).
Proof. reflexivity. Qed.

Lemma run_readBlock ref b (k : Block -> Run B) h c :
  bind (readBlock ref) k (mkWorld (<[ref := b]> h) c)
  = k b (mkWorld (<[ref := b]> h) c).
Proof.
  unfold bind, readBlock. cbn [heap]. rewrite lookup_insert_eq. reflexivity.
Qed.

Lemma run_writeData ref d b (k : unit -> Run B) h c :
  bind (writeData ref d) k (mkWorld (<[ref := b]> h) c)
  = k tt (mkWorld (<[ref := set_data d b]> h) c).
Proof.
  unfold bind, writeData. cbn [heap console].
  rewrite lookup_insert_eq, insert_insert_eq. reflexivity.
Qed.

Lemma run_callMineBlock fuel ref b (k : unit -> Run B) h c :
  bind (callMineBlock fuel ref) k (mkWorld (<[ref := b]> h) c)
  = match mineBlock fuel b with
    | Some b' =>
        k tt (mkWorld (<[ref := b']> h)
                ((c ++ [("Starting to mine block #" +:+ JS.toString (index b)) +:+ "..."])
                 ++ [(("Block #" +:+ JS.toString (index b')) +:+ " mined: ") +:+ hash b']))
    | None => None
    end.
Proof.
  unfold bind, callMineBlock, runMineBlock. cbn [heap console].
  rewrite lookup_insert_eq. cbn [mbind option_bind].
  destruct (mineBlock fuel b) as [b'|]; cbn [mbind option_bind];
    [rewrite insert_insert_eq|]; reflexivity.
Qed.
End RunSteps.

Ltac run_log H := rewrite run_consoleLog in H; cbv beta in H.
Ltac run_read H := rewrite run_readBlock in H; cbv beta zeta in H.
Ltac run_write H := rewrite run_writeData in H; cbv beta in H.
Ltac run_new H ref Href :=
  rewrite run_newBlock in H; cbv beta in H;
  match type of H with
  | context [fresh (dom ?h)] => remember (fresh (dom h)) as ref eqn:Href in H
  end.
Ltac run_mine H b Hm :=
  rewrite run_callMineBlock in H;
  match type of H with
  | match mineBlock ?f ?c with _ => _ end = _ =>
      destruct (mineBlock f c) as [b|] eqn:Hm; [cbv beta in H | discriminate H]
  end.

Lemma fresh_lookup (h : gmap positive Block) : h !! fresh (dom h) = None.
Proof. apply not_elem_of_dom, is_fresh. Qed.

Lemma simulatePoW_inv fuel now1 now2 now3 now4 w w' :
  simulatePoW fuel now1 now2 now3 now4 w = Some (tt, w') ->
  exists l1 l2 l3 l4 b1 b2 b3 b4,
    l1 = fresh (dom (heap w)) /\
    l2 = fresh (dom (<[l1 := b1]> (heap w))) /\
    l3 = fresh (dom (<[l2 := b2]> (<[l1 := b1]> (heap w)))) /\
    l4 = fresh (dom (<[l3 := b3]> (<[l2 := b2]> (<[l1 := b1]> (heap w))))) /\
    mineBlock fuel (constructor now1 0 "Genesis Block" (Some "0")) = Some b1 /\
    mineBlock fuel (constructor now2 1 "Transaction Data 1" (Some (hash b1))) = Some b2 /\
    mineBlock fuel (constructor now3 2 "Transaction Data 2" (Some (hash b2))) = Some b3 /\
    mineBlock fuel (constructor now4 3 "Original Data" (Some (hash b3))) = Some b4 /\
    w' = mkWorld
           (<[l4 := set_data "Tampered Data!" b4]>
              (<[l3 := b3]> (<[l2 := b2]> (<[l1 := b1]> (heap w)))))
           (console w
            ++ simulationOutput b1 b2 b3 (set_data "Tampered Data!" b4)).
Proof.
  intros H. unfold simulatePoW in H. destruct w as [h c].
  run_log H. run_log H. run_new H l1 Hl1. run_mine H b1 Hm1.
  run_read H. run_log H. run_read H.
  run_new H l2 Hl2. run_mine H b2 Hm2.
  run_read H. run_log H. run_log H.
  run_read H. run_log H. run_read H. run_log H. run_read H. run_log H.
  run_read H. run_log H. run_read H.
  run_new H l3 Hl3. run_mine H b3 Hm3.
  run_read H. run_log H. run_log H.
  run_read H. run_log H. run_read H. run_log H. run_read H. run_log H.
  run_read H. run_log H. run_log H. run_read H.
  run_new H l4 Hl4. run_mine H b4 Hm4.
  run_read H. run_log H. run_write H. run_read H. run_read H.
  run_log H. run_log H. run_read H.
  rewrite run_last_consoleLog in H.
  apply (f_equal (fun o => match o with Some (_, x) => x | None => w' end)) in H.
  destruct (mineBlock_fields _ _ _ Hm1) as (Hi1 & _).
  destruct (mineBlock_fields _ _ _ Hm2) as (Hi2 & _).
  destruct (mineBlock_fields _ _ _ Hm3) as (Hi3 & _).
  destruct (mineBlock_fields _ _ _ Hm4) as (Hi4 & _).
  rewrite Hi1, Hi2, Hi3, Hi4 in H.
  exists l1, l2, l3, l4, b1, b2, b3, b4. cbn [heap console].
  repeat (split; [first [assumption | reflexivity]|]).
  rewrite <- H. f_equal.
  rewrite <- !app_assoc. reflexivity.
Qed.

Example simulatePoW_run :
  simulatePoW 3 1700000036733 1700000046872 1700000062607 1700000073470 startWorld
  = Some (tt, runWorld).
Proof. by_running. Qed.

(** X1. Whatever the clock returns, when [simulatePoW()] runs to its end
    it has created four new blocks and changed no other: they carry the
    indices 0 to 3, the first refers to ["0"] and each later one to the
    stored hash of the one before, every stored hash satisfies the
    difficulty predicate, the first three store the hash of their fields,
    and the fourth holds the tampered data under the hash mined for the
    original data. *)
Theorem simulatePoW_chain fuel now1 now2 now3 now4 w w' :
  simulatePoW fuel now1 now2 now3 now4 w = Some (tt, w') ->
  exists l1 l2 l3 l4 b1 b2 b3 b4,
    List.NoDup [l1; l2; l3; l4] /\
    Forall (fun l => heap w !! l = None) [l1; l2; l3; l4] /\
    heap w' = <[l4 := b4]> (<[l3 := b3]> (<[l2 := b2]> (<[l1 := b1]> (heap w)))) /\
    (forall l b, heap w !! l = Some b -> heap w' !! l = Some b) /\
    (index b1 = 0 /\ index b2 = 1 /\ index b3 = 2 /\ index b4 = 3) /\
    (timestamp b1 = now1 /\ timestamp b2 = now2 /\
     timestamp b3 = now3 /\ timestamp b4 = now4) /\
    (previousHash b1 = "0" /\ previousHash b2 = hash b1 /\
     previousHash b3 = hash b2 /\ previousHash b4 = hash b3) /\
    Forall (fun b => isValidHash (hash b) = true) [b1; b2; b3; b4] /\
    Forall (fun b => hash b = calculateHash b) [b1; b2; b3] /\
    data b4 = "Tampered Data!" /\
    hash b4 = calculateHash (set_data "Original Data" b4).
Proof.
  intros H. apply simulatePoW_inv in H.
  destruct H as (l1 & l2 & l3 & l4 & b1 & b2 & b3 & b4 &
                 Hl1 & Hl2 & Hl3 & Hl4 & Hm1 & Hm2 & Hm3 & Hm4 & ->).
  pose proof (fresh_lookup (heap w)) as F1. rewrite <- Hl1 in F1.
  pose proof (fresh_lookup (<[l1 := b1]> (heap w))) as F2. rewrite <- Hl2 in F2.
  pose proof (fresh_lookup (<[l2 := b2]> (<[l1 := b1]> (heap w)))) as F3.
  rewrite <- Hl3 in F3.
  pose proof (fresh_lookup (<[l3 := b3]> (<[l2 := b2]> (<[l1 := b1]> (heap w))))) as F4.
  rewrite <- Hl4 in F4.
  apply lookup_insert_None in F2 as [F2 N12].
  apply lookup_insert_None in F3 as [F3 N23].
  apply lookup_insert_None in F3 as [F3 N13].
  apply lookup_insert_None in F4 as [F4 N34].
  apply lookup_insert_None in F4 as [F4 N24].
  apply lookup_insert_None in F4 as [F4 N14].
  destruct (mineBlock_fields _ _ _ Hm1) as (I1 & T1 & D1 & P1).
  destruct (mineBlock_fields _ _ _ Hm2) as (I2 & T2 & D2 & P2).
  destruct (mineBlock_fields _ _ _ Hm3) as (I3 & T3 & D3 & P3).
  destruct (mineBlock_fields _ _ _ Hm4) as (I4 & T4 & D4 & P4).
  exists l1, l2, l3, l4, b1, b2, b3, (set_data "Tampered Data!" b4).
  cbn [heap]. split; [|split; [|split; [|split]]].
  - repeat (apply List.NoDup_cons; [cbn [In]; intuition congruence|]).
    apply List.NoDup_nil.
  - repeat constructor; assumption.
  - reflexivity.
  - intros l b Hl.
    rewrite !lookup_insert_ne by congruence. exact Hl.
  - split; [repeat split; assumption|].
    split; [repeat split; assumption|].
    split; [repeat split; assumption|].
    pose proof (mineBlock_result_valid _ _ _ Hm1) as V1.
    pose proof (mineBlock_result_valid _ _ _ Hm2) as V2.
    pose proof (mineBlock_result_valid _ _ _ Hm3) as V3.
    pose proof (mineBlock_result_valid _ _ _ Hm4) as V4.
    pose proof (mineBlock_consistent _ _ _ (constructor_hash _ _ _ _) Hm1) as C1.
    pose proof (mineBlock_consistent _ _ _ (constructor_hash _ _ _ _) Hm2) as C2.
    pose proof (mineBlock_consistent _ _ _ (constructor_hash _ _ _ _) Hm3) as C3.
    split; [repeat (apply Forall_cons; [assumption|]); apply Forall_nil|].
    split; [repeat (apply Forall_cons; [assumption|]); apply Forall_nil|].
    split; [reflexivity|].
    change (hash (set_data "Tampered Data!" b4)) with (hash b4).
    rewrite (mineBlock_consistent _ _ _ (constructor_hash _ _ _ _) Hm4).
    apply calculateHash_fields; try reflexivity. exact D4.
Qed.

Lemma simulatePoW_chain_witness :
  exists l1 l2 l3 l4 b1 b2 b3 b4,
    List.NoDup [l1; l2; l3; l4] /\
    Forall (fun l => heap startWorld !! l = None) [l1; l2; l3; l4] /\
    heap runWorld
      = <[l4 := b4]> (<[l3 := b3]> (<[l2 := b2]> (<[l1 := b1]> (heap startWorld)))) /\
    (forall l b, heap startWorld !! l = Some b -> heap runWorld !! l = Some b) /\
    (index b1 = 0 /\ index b2 = 1 /\ index b3 = 2 /\ index b4 = 3) /\
    (timestamp b1 = 1700000036733 /\ timestamp b2 = 1700000046872 /\
     timestamp b3 = 1700000062607 /\ timestamp b4 = 1700000073470) /\
    (previousHash b1 = "0" /\ previousHash b2 = hash b1 /\
     previousHash b3 = hash b2 /\ previousHash b4 = hash b3) /\
    Forall (fun b => isValidHash (hash b) = true) [b1; b2; b3; b4] /\
    Forall (fun b => hash b = calculateHash b) [b1; b2; b3] /\
    data b4 = "Tampered Data!" /\
    hash b4 = calculateHash (set_data "Original Data" b4).
Proof.
  apply (simulatePoW_chain 3 1700000036733 1700000046872 1700000062607
           1700000073470 startWorld runWorld).
  vm_compute. reflexivity.
Defined.

(** X2. Whatever the clock returns, a run of [simulatePoW()] that reaches
    its end adds 28 lines to the console and keeps the earlier ones; it
    reports block 2 and block 3 as valid and their stored hashes as equal
    to the recalculated ones, and each of the four hashes it prints after
    mining starts with ["0000"]. *)
Theorem simulatePoW_output fuel now1 now2 now3 now4 w w' :
  simulatePoW fuel now1 now2 now3 now4 w = Some (tt, w') ->
  exists out,
    console w' = console w ++ out /\
    length out = 28%nat /\
    out !! 9%nat = Some "Block 2 valid: true" /\
    out !! 12%nat
      = Some ("Checking if stored hash matches recalculated hash: true" +:+ LF) /\
    out !! 17%nat = Some "Block 3 valid: true" /\
    out !! 20%nat
      = Some ("Checking if stored hash matches recalculated hash: true" +:+ LF) /\
    (exists r0 r1 r2 r3,
       out !! 3%nat = Some ("Block #0 mined: 0000" +:+ r0) /\
       out !! 6%nat = Some ("Block #1 mined: 0000" +:+ r1) /\
       out !! 14%nat = Some ("Block #2 mined: 0000" +:+ r2) /\
       out !! 23%nat = Some ("Block #3 mined: 0000" +:+ r3)).
Proof.
  intros H. apply simulatePoW_inv in H.
  destruct H as (l1 & l2 & l3 & l4 & b1 & b2 & b3 & b4 &
                 _ & _ & _ & _ & Hm1 & Hm2 & Hm3 & Hm4 & ->).
  pose proof (mineBlock_result_valid _ _ _ Hm1) as V1.
  pose proof (mineBlock_result_valid _ _ _ Hm2) as V2.
  pose proof (mineBlock_result_valid _ _ _ Hm3) as V3.
  pose proof (mineBlock_result_valid _ _ _ Hm4) as V4.
  pose proof (mineBlock_consistent _ _ _ (constructor_hash _ _ _ _) Hm2) as C2.
  pose proof (mineBlock_consistent _ _ _ (constructor_hash _ _ _ _) Hm3) as C3.
  destruct (proj1 (isValidHash_prefix _) V1) as [r0 E1].
  destruct (proj1 (isValidHash_prefix _) V2) as [r1 E2].
  destruct (proj1 (isValidHash_prefix _) V3) as [r2 E3].
  destruct (proj1 (isValidHash_prefix _) V4) as [r3 E4].
  exists (simulationOutput b1 b2 b3 (set_data "Tampered Data!" b4)).
  cbn [console]. split; [reflexivity|]. split; [reflexivity|].
  unfold simulationOutput.
  change (hash (set_data "Tampered Data!" b4)) with (hash b4).
  rewrite V2, V3, <- C2, <- C3, !String.eqb_refl.
  repeat (split; [reflexivity|]).
  exists r0, r1, r2, r3. rewrite E1, E2, E3, E4.
  repeat split; reflexivity.
Qed.

Lemma simulatePoW_output_witness :
  exists out,
    console runWorld = console startWorld ++ out /\
    length out = 28%nat /\
    out !! 9%nat = Some "Block 2 valid: true" /\
    out !! 12%nat
      = Some ("Checking if stored hash matches recalculated hash: true" +:+ LF) /\
    out !! 17%nat = Some "Block 3 valid: true" /\
    out !! 20%nat
      = Some ("Checking if stored hash matches recalculated hash: true" +:+ LF) /\
    (exists r0 r1 r2 r3,
       out !! 3%nat = Some ("Block #0 mined: 0000" +:+ r0) /\
       out !! 6%nat = Some ("Block #1 mined: 0000" +:+ r1) /\
       out !! 14%nat = Some ("Block #2 mined: 0000" +:+ r2) /\
       out !! 23%nat = Some ("Block #3 mined: 0000" +:+ r3)).
Proof.
  apply (simulatePoW_output 3 1700000036733 1700000046872 1700000062607
           1700000073470 startWorld runWorld).
  vm_compute. reflexivity.
Defined.

(** ** The message that is hashed *)

Lemma calculateHash_hashInput b : calculateHash b = CryptoJS.SHA256 (hashInput b).
Proof. reflexivity. Qed.

Lemma quoteUnits_cons c s :
  JS.quoteUnits (String c s) = JS.quoteUnit c +:+ JS.quoteUnits s.
Proof. reflexivity. Qed.

Lemma unquoteUnit_quoteUnit c rest :
  unquoteUnit (JS.quoteUnit c +:+ rest) = Some (c, rest).
Proof. destruct c as [[] [] [] [] [] [] [] []]; reflexivity. Qed.

Lemma unquoteUnit_dquote rest : unquoteUnit (String JS.dquote rest) = None.
Proof. reflexivity. Qed.

Lemma quoteUnits_inj s : forall t r r',
  JS.quoteUnits s +:+ String JS.dquote r = JS.quoteUnits t +:+ String JS.dquote r' ->
  s = t /\ r = r'.
Proof.
  induction s as [|c s IH]; intros [|c' t] r r' H.
  - injection H as ->. split; reflexivity.
  - rewrite quoteUnits_cons, append_assoc in H.
    apply (f_equal unquoteUnit) in H.
    rewrite unquoteUnit_quoteUnit in H. discriminate H.
  - rewrite quoteUnits_cons, append_assoc in H.
    apply (f_equal unquoteUnit) in H.
    rewrite unquoteUnit_quoteUnit in H. discriminate H.
  - rewrite !quoteUnits_cons, !append_assoc in H.
    apply (f_equal unquoteUnit) in H.
    rewrite !unquoteUnit_quoteUnit in H. injection H as -> H.
    destruct (IH _ _ _ H) as [-> ->]. split; reflexivity.
Qed.

Lemma JSON_stringify_inj s t r r' :
  JS.JSON_stringify s +:+ r = JS.JSON_stringify t +:+ r' -> s = t /\ r = r'.
Proof.
  unfold JS.JSON_stringify. intros H.
  change (String JS.dquote ((JS.quoteUnits s +:+ String JS.dquote "") +:+ r)
          = String JS.dquote ((JS.quoteUnits t +:+ String JS.dquote "") +:+ r')) in H.
  injection H as H. rewrite !append_assoc in H.
  apply (quoteUnits_inj s t r r'). exact H.
Qed.

Lemma toString_inj n m : JS.toString n = JS.toString m -> n = m.
Proof.
  unfold JS.toString. intros H. apply DecimalZ.to_int_inj.
  assert (Hnorm : forall z, NilZero.int_of_string (NilZero.string_of_int (Z.to_int z))
                            = Some (Z.to_int z)).
  { intros z. apply NilZero.isi.
    - intros E. pose proof (DecimalZ.to_of (Z.to_int z)) as Hz.
      rewrite DecimalZ.of_to, E in Hz. discriminate Hz.
    - intros E. pose proof (DecimalZ.to_of (Z.to_int z)) as Hz.
      rewrite DecimalZ.of_to, E in Hz. discriminate Hz. }
  pose proof (Hnorm n) as Hn. rewrite H, Hnorm in Hn. congruence.
Qed.

Lemma append_cancel_l (s t u : string) : s +:+ t = s +:+ u -> t = u.
Proof.
  induction s as [|c s IH]; [trivial|].
  change (String c (s +:+ t) = String c (s +:+ u) -> t = u).
  intros [= H]. exact (IH H).
Qed.

Lemma hashInput_inv a b :
  index a = index b -> previousHash a = previousHash b ->
  timestamp a = timestamp b -> hashInput a = hashInput b ->
  data a = data b /\ nonce a = nonce b.
Proof.
  unfold hashInput. intros -> -> -> H.
  rewrite !append_assoc in H.
  do 3 apply append_cancel_l in H.
  apply JSON_stringify_inj in H. destruct H as [Hd Hn].
  split; [exact Hd | exact (toString_inj _ _ Hn)].
Qed.

(** X3. Among blocks with the same [index], [previousHash] and
    [timestamp], the message that [calculateHash()] hashes determines
    [data] and [nonce]: writing another value to [data], or to [nonce],
    always changes the message. *)
Theorem hashInput_commits b :
  (forall a, index a = index b -> previousHash a = previousHash b ->
             timestamp a = timestamp b -> hashInput a = hashInput b ->
             data a = data b /\ nonce a = nonce b) /\
  (forall d, d <> data b -> hashInput (set_data d b) <> hashInput b) /\
  (forall n, n <> nonce b -> hashInput (set_nonce n b) <> hashInput b) /\
  calculateHash b = CryptoJS.SHA256 (hashInput b).
Proof.
  split; [|split; [|split]].
  - intros a. apply hashInput_inv.
  - intros d Hd H. apply Hd.
    apply (hashInput_inv (set_data d b) b); auto.
  - intros n Hn H. apply Hn.
    apply (hashInput_inv (set_nonce n b) b); auto.
  - reflexivity.
Qed.

Lemma hashInput_commits_witness :
  hashInput (set_data "Tampered Data!" genesisMined) <> hashInput genesisMined.
Proof.
  destruct (hashInput_commits genesisMined) as (_ & Hdata & _).
  apply Hdata. discriminate.
Defined.

(** ** Where the message is ambiguous *)

Lemma string_of_uint_revapp d : forall acc,
  NilEmpty.string_of_uint (Decimal.revapp d acc)
  = NilEmpty.string_of_uint (Decimal.revapp d Decimal.Nil)
    +:+ NilEmpty.string_of_uint acc.
Proof.
  induction d as [|d IH|d IH|d IH|d IH|d IH|d IH|d IH|d IH|d IH|d IH];
    intros acc; cbn [Decimal.revapp];
    [reflexivity | rewrite IH, (IH (_ Decimal.Nil)), append_assoc; reflexivity ..].
Qed.

Lemma toString_tenfold i : 0 < i -> JS.toString (10 * i) = JS.toString i +:+ "0".
Proof.
  destruct i as [|p|p]; try lia. intros _.
  change (10 * Z.pos p) with (Z.pos (10 * p)).
  unfold JS.toString, Z.to_int, NilZero.string_of_int, NilZero.string_of_uint.
  pose proof (DecimalPos.Unsigned.to_uint_nonnil (10 * p)) as N10.
  pose proof (DecimalPos.Unsigned.to_uint_nonnil p) as N1.
  assert (E : Pos.to_uint (10 * p)
              = Decimal.revapp (Pos.to_little_uint p) (Decimal.D0 Decimal.Nil)).
  { unfold Pos.to_uint, Decimal.rev.
    pose proof (DecimalPos.Unsigned.to_ldec_tenfold p) as T.
    change (DecimalPos.Unsigned.to_lu (10 * N.pos p))
      with (Pos.to_little_uint (10 * p)) in T.
    change (DecimalPos.Unsigned.to_lu (N.pos p)) with (Pos.to_little_uint p) in T.
    rewrite T. reflexivity. }
  destruct (Pos.to_uint (10 * p)) eqn:E10; [contradiction|..];
    destruct (Pos.to_uint p) eqn:E1; try contradiction;
    rewrite E, string_of_uint_revapp;
    change (Decimal.revapp (Pos.to_little_uint p) Decimal.Nil) with (Pos.to_uint p);
    rewrite E1; reflexivity.
Qed.

Lemma sameMessages_calculateHash a b :
  sameMessages a b -> calculateHash a = calculateHash b.
Proof.
  intros (Hip & Ht & Hd & Hn). unfold calculateHash.
  rewrite Hip, Ht, Hd, Hn. reflexivity.
Qed.

Lemma sameMessages_mineStep a b :
  sameMessages a b -> sameMessages (mineStep a) (mineStep b).
Proof.
  intros (Hip & Ht & Hd & Hn). repeat split; try assumption.
  cbn [mineStep set_hash set_nonce nonce]. rewrite Hn. reflexivity.
Qed.

Lemma sameMessages_mineBlock fuel : forall a b,
  sameMessages a b -> hash a = hash b ->
  match mineBlock fuel a, mineBlock fuel b with
  | Some a', Some b' => hash a' = hash b' /\ nonce a' = nonce b'
  | None, None => True
  | _, _ => False
  end.
Proof.
  induction fuel as [|fuel IH]; intros a b Hs Hh;
    rewrite (mineBlock_unfold _ a), (mineBlock_unfold _ b), Hh;
    destruct (isValidHash (hash b)).
  - split; [exact Hh | apply Hs].
  - exact I.
  - split; [exact Hh | apply Hs].
  - apply IH; [apply sameMessages_mineStep, Hs|].
    rewrite !mineStep_hash.
    apply sameMessages_calculateHash, sameMessages_mineStep, Hs.
Qed.

Lemma sameMessages_tenfold i now d p :
  0 < i ->
  sameMessages (constructor now (10 * i) d (Some p))
    (constructor now i d (Some ("0" +:+ p))).
Proof.
  intros Hi. repeat split.
  cbn [constructor set_hash index previousHash default].
  rewrite (toString_tenfold i Hi), append_assoc. reflexivity.
Qed.

Lemma tenfold_hash i now d p :
  0 < i ->
  hash (constructor now (10 * i) d (Some p))
  = hash (constructor now i d (Some ("0" +:+ p))).
Proof.
  intros Hi. rewrite !constructor_hash.
  apply sameMessages_calculateHash, sameMessages_tenfold, Hi.
Qed.

(** X4. The message does not mark where [index] ends and [previousHash]
    begins.  For every index [i > 0] with [10 * i] at most 2^53 (where
    the numbers print all their digits), the block made with index
    [10 * i] and previous hash [p] and the block made with index [i] and
    previous hash ["0" ++ p] at the same instant store the same hash, and
    mining them finishes (or not) together, on the same nonce and the same
    hash; in particular the block with index [10 * i] made without a
    previous hash has the hash of the block with index [i] and previous
    hash ["0"]. *)
Theorem index_previousHash_boundary i now d p :
  0 < i -> 10 * i <= 2 ^ 53 ->
  hash (constructor now (10 * i) d (Some p))
  = hash (constructor now i d (Some ("0" +:+ p))) /\
  (forall fuel,
     match mineBlock fuel (constructor now (10 * i) d (Some p)),
           mineBlock fuel (constructor now i d (Some ("0" +:+ p))) with
     | Some a', Some b' => hash a' = hash b' /\ nonce a' = nonce b'
     | None, None => True
     | _, _ => False
     end) /\
  hash (constructor now (10 * i) d None)
  = hash (constructor now i d (Some "0")).
Proof.
  intros Hi _. split; [apply tenfold_hash, Hi|]. split.
  - intros fuel.
    apply sameMessages_mineBlock; [apply sameMessages_tenfold | apply tenfold_hash];
      exact Hi.
  - exact (tenfold_hash i now d "" Hi).
Qed.

Lemma index_previousHash_boundary_witness :
  hash (constructor 1700000036733 10 "Genesis Block" None)
  = hash (constructor 1700000036733 1 "Genesis Block" (Some "0")).
Proof.
  assert (H : 0 < 1) by lia.
  assert (H' : 10 * 1 <= 2 ^ 53) by (vm_compute; discriminate).
  exact (proj2 (proj2
    (index_previousHash_boundary 1 1700000036733 "Genesis Block" "" H H'))).
Defined.

(** ** The nonce as a count of the work done *)

(** X5. On every block whose nonce is an integer from -2^53 to 2^53,
    whatever its stored hash, [mineBlock] never lowers the nonce, raises
    it by at most one for each execution of the loop body and never takes
    it beyond 2^53; a nonce that starts at 2^53 is left there. *)
Theorem mineBlock_nonce_bounds fuel b b' :
  mineBlock fuel b = Some b' ->
  - 2 ^ 53 <= nonce b <= 2 ^ 53 ->
  nonce b <= nonce b' <= nonce b + Z.of_nat fuel /\
  nonce b' <= 2 ^ 53 /\
  (nonce b = 2 ^ 53 -> nonce b' = 2 ^ 53).
Proof.
  intros Hm Hr. destruct (mineBlock_nonce_range _ _ _ Hm) as (Hle & Hmax & Hstuck).
  split; [exact Hle|]. split; [apply Hmax, Hr|].
  intros Heq. rewrite Hstuck; lia.
Qed.

Lemma mineBlock_nonce_bounds_witness :
  nonce genesis <= nonce genesisMined <= nonce genesis + Z.of_nat 2 /\
  nonce genesisMined <= 2 ^ 53 /\
  (nonce genesis = 2 ^ 53 -> nonce genesisMined = 2 ^ 53).
Proof.
  apply (mineBlock_nonce_bounds 2 genesis genesisMined).
  - vm_compute. reflexivity.
  - vm_compute. split; discriminate.
Defined.

Lemma mineBlock_count fuel : forall b b',
  mineBlock fuel b = Some b' ->
  nonce b < JS.MAX_EXACT \/ hash b = calculateHash b ->
  mineBlock (Z.to_nat (nonce b' - nonce b)) b = Some b' /\
  forall k, (k < Z.to_nat (nonce b' - nonce b))%nat -> mineBlock k b = None.
Proof.
  induction fuel as [|fuel IH]; intros b b'; rewrite (mineBlock_unfold _ b);
    destruct (isValidHash (hash b)) eqn:Hb; try discriminate.
  - intros [= <-] _. rewrite Z.sub_diag. split; [apply mineBlock_valid, Hb | lia].
  - intros [= <-] _. rewrite Z.sub_diag. split; [apply mineBlock_valid, Hb | lia].
  - intros Hm Hg.
    destruct (Z.lt_ge_cases (nonce b) JS.MAX_EXACT) as [Hlt | Hge].
    + destruct (IH _ _ Hm (or_intror (mineStep_hash b))) as (Hrun & Hshort).
      destruct (mineBlock_nonce_range _ _ _ Hm) as (Hle & _).
      rewrite (mineStep_nonce b Hlt) in Hrun, Hshort, Hle.
      replace (Z.to_nat (nonce b' - nonce b))
        with (S (Z.to_nat (nonce b' - (nonce b + 1)))) by lia.
      split.
      * rewrite (mineBlock_invalid _ _ Hb). exact Hrun.
      * intros [|k] Hk; rewrite mineBlock_unfold, Hb; [reflexivity|].
        apply Hshort. lia.
    + destruct Hg as [Hlt | Hc]; [lia|].
      assert (Hnever : mineBlock (S fuel) b = None).
      { apply mineBlock_never; [exact Hc | exact Hb | intros n Hn; lia]. }
      rewrite (mineBlock_invalid _ _ Hb), Hm in Hnever. discriminate Hnever.
Qed.

(** X6. The committed nonce counts the work: when [mineBlock] returns on
    a block whose nonce is an integer from -2^53 to 2^53 and is below
    2^53, or whose stored hash was the hash of its fields, the loop body
    has run exactly [nonce' - nonce] times; that many executions are
    enough, and no smaller number is.  For a block fresh from the
    constructor the count is the committed nonce itself. *)
Theorem mineBlock_iterations fuel b b' :
  mineBlock fuel b = Some b' ->
  - 2 ^ 53 <= nonce b <= 2 ^ 53 ->
  nonce b < 2 ^ 53 \/ hash b = calculateHash b ->
  mineBlock (Z.to_nat (nonce b' - nonce b)) b = Some b' /\
  (forall k, (k < Z.to_nat (nonce b' - nonce b))%nat -> mineBlock k b = None) /\
  (nonce b = 0 -> mineBlock (Z.to_nat (nonce b')) b = Some b').
Proof.
  intros Hm _ Hg. destruct (mineBlock_count _ _ _ Hm Hg) as (Hrun & Hshort).
  split; [exact Hrun|]. split; [exact Hshort|].
  intros H0. rewrite H0, Z.sub_0_r in Hrun. exact Hrun.
Qed.

Lemma mineBlock_iterations_witness :
  mineBlock (Z.to_nat (nonce genesisMined - nonce genesis)) genesis
    = Some genesisMined /\
  (forall k, (k < Z.to_nat (nonce genesisMined - nonce genesis))%nat ->
             mineBlock k genesis = None) /\
  (nonce genesis = 0 ->
   mineBlock (Z.to_nat (nonce genesisMined)) genesis = Some genesisMined).
Proof.
  apply (mineBlock_iterations 5 genesis genesisMined).
  - vm_compute. reflexivity.
  - vm_compute. split; discriminate.
  - left. vm_compute. reflexivity.
Defined.

(** X7. Every block made by the constructor and changed by [mineBlock]
    alone has a nonce between 0 and 2^53 and stores a hash of 64
    hexadecimal digits. *)
Theorem Lifecycle_invariants b :
  Lifecycle b ->
  0 <= nonce b <= 2 ^ 53 /\
  String.length (hash b) = 64%nat /\
  Forall (fun c => isHexDigit c = true) (list_ascii_of_string (hash b)).
Proof.
  intros Hl. split.
  - induction Hl as [now i d p | fuel b b' _ IH Hm].
    + cbn. lia.
    + destruct (mineBlock_nonce_range _ _ _ Hm) as (Hle & Hmax & _). lia.
  - rewrite (Lifecycle_hash b Hl). split; [apply hexState_length | apply hexState_digits].
Qed.

Lemma Lifecycle_invariants_witness :
  0 <= nonce genesisMined <= 2 ^ 53 /\
  String.length (hash genesisMined) = 64%nat /\
  Forall (fun c => isHexDigit c = true) (list_ascii_of_string (hash genesisMined)).
Proof.
  apply (Lifecycle_invariants genesisMined).
  apply (Lifecycle_mined 2 genesis).
  - apply Lifecycle_new.
  - vm_compute. reflexivity.
Defined.

(** ** The difficulty in bits *)

Lemma wrap32_range x : 0 <= CryptoJS.wrap32 x < 2 ^ 32.
Proof.
  unfold CryptoJS.wrap32. change 0xffffffff with (Z.ones 32).
  rewrite Z.land_ones by lia. apply Z.mod_pos_bound. lia.
Qed.

Lemma compress_range s block : 0 <= CryptoJS.sa (CryptoJS.compress s block) < 2 ^ 32.
Proof.
  unfold CryptoJS.compress.
  destruct (fst (fold_left CryptoJS.round CryptoJS.K (s, block))).
  cbn [CryptoJS.sa]. apply wrap32_range.
Qed.

Lemma hashBlocks_range n : forall s ws,
  0 <= CryptoJS.sa s < 2 ^ 32 ->
  0 <= CryptoJS.sa (CryptoJS.hashBlocks n s ws) < 2 ^ 32.
Proof.
  induction n as [|n IH]; intros s ws Hs; [exact Hs|].
  destruct ws as [|w ws]; [exact Hs|].
  cbn [CryptoJS.hashBlocks]. apply IH, compress_range.
Qed.

Lemma sha256_range msg : 0 <= CryptoJS.sa (CryptoJS.sha256 msg) < 2 ^ 32.
Proof.
  unfold CryptoJS.sha256. apply hashBlocks_range.
  vm_compute. split; [discriminate | reflexivity].
Qed.

Lemma hexDigit_zero x : CryptoJS.hexDigit x = "0"%char <-> x mod 16 = 0.
Proof.
  unfold CryptoJS.hexDigit.
  pose proof (Z.mod_pos_bound x 16 ltac:(lia)) as Hb.
  assert (E : x mod 16 = Z.of_nat (Z.to_nat (x mod 16))) by lia.
  rewrite E at 2. clear E.
  assert (Hlt : (Z.to_nat (x mod 16) < 16)%nat) by lia.
  revert Hlt. generalize (Z.to_nat (x mod 16)). intros k Hk.
  do 16 (destruct k as [|k]; [cbn; split; (discriminate || reflexivity || lia)|]).
  lia.
Qed.

Lemma isValidHash_hexState s :
  0 <= CryptoJS.sa s < 2 ^ 32 ->
  isValidHash (CryptoJS.hexState s) = true <-> CryptoJS.sa s < 2 ^ 16.
Proof.
  intros Hr. unfold isValidHash, DIFFICULTY, CryptoJS.hexState.
  unfold CryptoJS.hexWord at 1. rewrite substring_four, String.eqb_eq.
  change (JS.arrayJoin (4 + 1) "0") with "0000".
  set (w := CryptoJS.sa s) in *.
  split.
  - intros [= H28 H24 H20 H16].
    apply hexDigit_zero in H28, H24, H20, H16.
    rewrite Z.shiftr_div_pow2 in H28, H24, H20, H16 by lia.
    change (2 ^ 28) with 268435456 in H28. change (2 ^ 24) with 16777216 in H24.
    change (2 ^ 20) with 1048576 in H20. change (2 ^ 16) with 65536 in H16.
    change (2 ^ 32) with 4294967296 in Hr. change (2 ^ 16) with 65536.
    Z.div_mod_to_equations. lia.
  - intros Hlt.
    assert (Hz : forall k, 16 <= k ->
              CryptoJS.hexDigit (Z.shiftr w k) = "0"%char).
    { intros k Hk. apply hexDigit_zero. rewrite Z.shiftr_div_pow2 by lia.
      rewrite Z.div_small; [reflexivity|]. split; [lia|].
      apply Z.lt_le_trans with (2 ^ 16); [exact Hlt|].
      apply Z.pow_le_mono_r; lia. }
    rewrite !Hz by lia. reflexivity.
Qed.

(** X8. A hash computed by [calculateHash()] satisfies [isValidHash]
    exactly when the first 16 bits of the SHA-256 digest are zero, that
    is when the first of its eight 32-bit words is below 2^16: the four
    leading characters checked are four bits each. *)
Theorem isValidHash_sixteen_bits b :
  isValidHash (calculateHash b) = true <->
  CryptoJS.sa (CryptoJS.sha256 (CryptoJS.utf8Parse (hashInput b))) < 2 ^ 16.
Proof.
  change (calculateHash b)
    with (CryptoJS.hexState (CryptoJS.sha256 (CryptoJS.utf8Parse (hashInput b)))).
  apply isValidHash_hexState, sha256_range.
Qed.

Lemma isValidHash_sixteen_bits_witness :
  isValidHash (calculateHash genesisMined) = true /\
  ~ CryptoJS.sa (CryptoJS.sha256 (CryptoJS.utf8Parse (hashInput genesis))) < 2 ^ 16.
Proof.
  split.
  - apply (isValidHash_sixteen_bits genesisMined). vm_compute. reflexivity.
  - intros H. apply (isValidHash_sixteen_bits genesis) in H.
    revert H. vm_compute. discriminate.
Defined.
